(** * MIDI song database generator: model and properties

    Shallow embedding of [python.py] (the MIDI song database generator):
    the filename classifier [extract_song_info_from_filename], the catalog
    builder [generate_midi_songs_json] and the driver [main].

    Python strings are modelled as lists of 8-bit characters, read as the
    Unicode code points below 256; [lower], [strip] and the regular
    expression classes are written out for that range. *)

From Stdlib Require Import List Bool Arith NArith ZArith Lia.
From Stdlib Require Import Ascii String.
From Stdlib Require DecimalString.
Import ListNotations.

Local Open Scope string_scope.
Local Open Scope list_scope.

(** ** Python strings *)

Module Py.

Definition str := list ascii.

(** String literals of the source are written as Rocq strings. *)
Definition lit (s : string) : str := list_ascii_of_string s.
Coercion lit : string >-> str.

Definition eqb (a b : str) : bool :=
  if list_eq_dec ascii_dec a b then true else false.

(** [s.startswith(p)] *)
Fixpoint startswith (p s : str) : bool :=
  match p, s with
  | [], _ => true
  | _ :: _, [] => false
  | a :: p', b :: s' => Ascii.eqb a b && startswith p' s'
  end.

(** [sub in s] *)
Fixpoint contains (sub s : str) : bool :=
  startswith sub s ||
  match s with
  | [] => false
  | _ :: s' => contains sub s'
  end.

(** [s.endswith(p)] *)
Definition endswith (p s : str) : bool :=
  Nat.leb (List.length p) (List.length s) &&
  startswith p (skipn (List.length s - List.length p) s).

(** [s.replace(old, new)]: the occurrences of [old] are found from the
    left and do not overlap.  [skip] counts the characters of a found
    occurrence that are still to be passed over. *)
Fixpoint replace_from (old new : str) (skip : nat) (s : str) : str :=
  match s with
  | [] => []
  | c :: s' =>
      match skip with
      | S k => replace_from old new k s'
      | O =>
          if startswith old s
          then new ++ replace_from old new (List.length old - 1) s'
          else c :: replace_from old new 0 s'
      end
  end.

(** With an empty [old] Python puts [new] before every character and at
    the end. *)
Definition replace (old new s : str) : str :=
  match old with
  | [] => new ++ flat_map (fun c => c :: new) s
  | _ :: _ => replace_from old new 0 s
  end.

(** [c.lower()] on the code points below 256: A-Z and the Latin-1 capital
    letters (0xC0-0xDE without the multiplication sign 0xD7) move up by
    32. *)
Definition lower_char (c : ascii) : ascii :=
  let n := N_of_ascii c in
  if ((65 <=? n) && (n <=? 90) ||
      (192 <=? n) && (n <=? 222) && negb (n =? 215))%N
  then ascii_of_N (n + 32)
  else c.

Definition lower (s : str) : str := map lower_char s.

(** Whitespace in the sense of [str.isspace], code points below 256. *)
Definition isspace (c : ascii) : bool :=
  let n := N_of_ascii c in
  ((9 <=? n) && (n <=? 13) || (28 <=? n) && (n <=? 32) ||
   (n =? 133) || (n =? 160))%N.

Fixpoint lstrip_by (p : ascii -> bool) (s : str) : str :=
  match s with
  | [] => []
  | c :: s' => if p c then lstrip_by p s' else s
  end.

Fixpoint rstrip_by (p : ascii -> bool) (s : str) : str :=
  match s with
  | [] => []
  | c :: s' =>
      match rstrip_by p s' with
      | [] => if p c then [] else [c]
      | r => c :: r
      end
  end.

Definition strip_by (p : ascii -> bool) (s : str) : str :=
  rstrip_by p (lstrip_by p s).

(** [s.strip()] *)
Definition strip (s : str) : str := strip_by isspace s.

(** [s.strip(chars)] *)
Definition strip_chars (chars s : str) : str :=
  strip_by (fun c => existsb (Ascii.eqb c) chars) s.

(** The first occurrence of [sep] cuts [s] in two. *)
Fixpoint cut (sep s : str) : option (str * str) :=
  if startswith sep s then Some ([], skipn (List.length sep) s)
  else
    match s with
    | [] => None
    | c :: s' =>
        match cut sep s' with
        | Some (a, b) => Some (c :: a, b)
        | None => None
        end
    end.

(** [s.split(sep, 1)] for a non-empty [sep] *)
Definition split1 (sep s : str) : list str :=
  match cut sep s with
  | Some (a, b) => [a; b]
  | None => [s]
  end.

(** [str(n)] for a length *)
Definition of_nat (n : nat) : str :=
  lit (DecimalString.NilEmpty.string_of_uint (Nat.to_uint n)).

End Py.

Import Py.

(** ** Exceptions

    Code that can raise returns a [result]; [bind] passes the first
    exception on, as Python does. *)

Inductive exn : Type :=
| IndexError
| KeyError (key : str)
| OSError (msg : str).

Inductive result (A : Type) : Type :=
| Ok (a : A)
| Raise (e : exn).

Arguments Ok {A} a.
Arguments Raise {A} e.

Definition bind {A B : Type} (m : result A) (k : A -> result B) : result B :=
  match m with
  | Ok a => k a
  | Raise e => Raise e
  end.

Notation "x <- m ;; k" := (bind m (fun x => k))
  (at level 61, m at next level, right associativity).

(** [str(e)].  For a [KeyError] it is the [repr] of the key, written out
    for a key of letters, as the source's ['easy']. *)
Definition exn_message (e : exn) : str :=
  match e with
  | IndexError => "list index out of range"
  | KeyError key => lit "'" ++ key ++ lit "'"
  | OSError msg => msg
  end.

(** [parts[i]] *)
Definition index {A : Type} (parts : list A) (i : nat) : result A :=
  match nth_error parts i with
  | Some x => Ok x
  | None => Raise IndexError
  end.

(** ** The filename classifier *)

Module Info.
Record t : Type := Build {
  title : str;
  artist : str;
  difficulties : list str;
  overall_difficulty : Z
}.
End Info.

(** Line 16: the two [replace] calls that are meant to remove the
    extension. *)
Definition strip_extension (filename : str) : str :=
  replace ".midi" "" (replace ".mid" "" filename).

(** Lines 19-32: the default title and artist, taken apart at the first
    [" - "] or [" -"]. *)
Definition split_title_artist (name : str) : result (str * str) :=
  if contains " - " name then
    let parts := split1 " - " name in
    artist <- index parts 0 ;;
    title <- index parts 1 ;;
    Ok (strip title, strip artist)
  else if contains " -" name then
    let parts := split1 " -" name in
    artist <- index parts 0 ;;
    title <- index parts 1 ;;
    Ok (strip title, strip artist)
  else Ok (name, lit "Unknown").

(** Lines 35-106: the chain of known songs.  [l] is [name.lower()]; the
    pair is (title, artist). *)
Definition special_cases (l : str) (ta : str * str) : str * str :=
  let (title, artist) := ta in
  if contains "twinkle" l then
    (lit "Twinkle Twinkle Little Star", lit "Traditional")
  else if contains "beethoven" l || contains "moonlight" l then
    (lit "Moonlight Sonata", lit "Beethoven")
  else if contains "debussy" l || contains "clair" l then
    (lit "Clair de Lune", lit "Debussy")
  else if contains "metallica" l then
    (if contains "master" l then lit "Master of Puppets"
     else if contains "nothing" l then lit "Nothing Else Matters"
     else title,
     lit "Metallica")
  else if contains "michael jackson" l || contains "billie jean" l then
    (lit "Billie Jean", lit "Michael Jackson")
  else if contains "nirvana" l || contains "smells" l then
    (lit "Smells Like Teen Spirit", lit "Nirvana")
  else if contains "owl city" l || contains "fireflies" l then
    (lit "Fireflies", lit "Owl City")
  else if contains "pokemon" l then
    (lit "Wild Pokemon Battle", lit "Pokemon")
  else if contains "smash" l && contains "mouth" l then
    (lit "All Star", lit "Smash Mouth")
  else if contains "final countdown" l then
    (lit "The Final Countdown", lit "Europe")
  else if contains "toto" l || contains "africa" l then
    (lit "Africa", lit "Toto")
  else if contains "wii" l && contains "theme" l then
    (lit "Wii Theme", lit "Nintendo")
  else if contains "mii channel" l then
    (lit "Mii Channel", lit "Nintendo")
  else if contains "super smash" l then
    (lit "Super Smash Bros Brawl - Main Theme", lit "Nintendo")
  else if contains "mountain king" l then
    (lit "In the Hall of the Mountain King", lit "Grieg")
  else if contains "titanic" l || contains "heart" l then
    (lit "My Heart Will Go On", lit "Celine Dion")
  else if contains "backstreet" l then
    (lit "I Want It That Way", lit "Backstreet Boys")
  else if contains "dooms-gate" l then
    (lit "Doom's Gate", lit "Doom")
  else if contains "spearsofjustice" l then
    (lit "Spear of Justice", lit "Undertale")
  else if contains "test-drive" l then
    (lit "Test Drive", lit "Test")
  else if contains "desert" l || contains "canyon" l then
    (lit "Desert Canyon", lit "Traditional")
  else if contains "beach" l && contains "town" l then
    (if contains "violin" l then lit "Beach Town Violin"
     else if contains "flute" l then lit "Beach Town Flute"
     else title,
     lit "Traditional")
  else (title, artist).

Definition extract_song_info_from_filename (filename : str)
  : result Info.t :=
  let name := strip_extension filename in
  let difficulties := [lit "easy"] in
  let overall_difficulty := 5%Z in
  ta <- split_title_artist name ;;
  let (title, artist) := special_cases (lower name) ta in
  Ok (Info.Build title artist difficulties overall_difficulty).

(** ** The catalog builder *)

(** The source never builds a note: every note list is empty. *)
Inductive note : Type := .

Module Song.
Record t : Type := Build {
  id : str;
  title : str;
  artist : str;
  duration : str;
  difficulties : list str;
  bpm : Z;
  format : str;
  overallDifficulty : Z;
  soundFont : str;
  midiFiles : list (str * str);
  audioFiles : list (str * str);
  notes : list (str * list note)
}.

(** [song["soundFont"] = url] *)
Definition set_soundFont (url : str) (s : t) : t :=
  Build (id s) (title s) (artist s) (duration s) (difficulties s) (bpm s)
        (format s) (overallDifficulty s) url (midiFiles s) (audioFiles s)
        (notes s).
End Song.

Definition is_lower_alnum (c : ascii) : bool :=
  let n := N_of_ascii c in
  ((97 <=? n) && (n <=? 122) || (48 <=? n) && (n <=? 57))%N.

Definition hyphen : ascii := "-"%char.

(** [re.sub(r'[^a-z0-9]', '-', s)] *)
Definition sub_non_alnum (s : str) : str :=
  map (fun c => if is_lower_alnum c then c else hyphen) s.

(** [re.sub(r'-+', '-', s)]: every maximal run of hyphens becomes one
    hyphen. *)
Fixpoint sub_hyphen_runs (s : str) : str :=
  match s with
  | [] => []
  | c :: s' =>
      if Ascii.eqb c hyphen then
        match s' with
        | c' :: _ =>
            if Ascii.eqb c' hyphen then sub_hyphen_runs s'
            else c :: sub_hyphen_runs s'
        | [] => [c]
        end
      else c :: sub_hyphen_runs s'
  end.

(** Lines 134-136 *)
Definition song_id_of (filename : str) : str :=
  let song_id := lower (strip_extension filename) in
  let song_id := sub_non_alnum song_id in
  strip_chars "-" (sub_hyphen_runs song_id).

Definition soundfont_url : str :=
  "https://porter-smith.github.io/rhythm-master-files/soundfonts/gzdoom.sf2".

Definition soundfont_keywords : list str :=
  [lit "doom"; lit "spearsofjustice"; lit "beach"; lit "desert"].

(** Lines 139-158: the song object as first built. *)
Definition new_song (filename song_id : str) (song_info : Info.t) : Song.t :=
  Song.Build
    (song_id ++ lit "-midi")
    (Info.title song_info)
    (Info.artist song_info)
    (lit "0:30")
    (Info.difficulties song_info)
    120
    (lit "midi")
    (Info.overall_difficulty song_info)
    soundfont_url
    [(lit "easy",
      lit "https://porter-smith.github.io/rhythm-master-files/midi/"
      ++ filename)]
    [(lit "easy", lit "/audio/" ++ song_id ++ lit "-easy.mp3")]
    [(lit "easy", [])].

(** Lines 161-162: the soundfont of certain songs. *)
Definition add_soundfont (filename : str) (song : Song.t) : Song.t :=
  if existsb (fun keyword => contains keyword (lower filename))
             soundfont_keywords
  then Song.set_soundFont
         "https://porter-smith.github.io/rhythm-master-files/soundfonts/gzdoom.sf2"
         song
  else song.

(** One turn of the loop of lines 127-164. *)
Definition song_of_file (filename : str) : result Song.t :=
  song_info <- extract_song_info_from_filename filename ;;
  let song_id := song_id_of filename in
  Ok (add_soundfont filename (new_song filename song_id song_info)).

Fixpoint for_midi_files (midi_files : list str) (songs : list Song.t)
  : result (list Song.t) :=
  match midi_files with
  | [] => Ok songs
  | filename :: rest =>
      song <- song_of_file filename ;;
      for_midi_files rest (songs ++ [song])
  end.

(** What the program sees of its environment: the names in the directory
    [midi] in the order the system lists them ([None] when the directory
    does not exist), and whether [midi_songs_database.json] can be opened
    for writing ([Some msg]: [open] raises [OSError] with that message). *)
Record World : Type := {
  midi_dir : option (list str);
  open_error : option str
}.

(** [midi_dir.glob("*" + ext)] with names compared case-sensitively. *)
Definition glob (ext : str) (entries : list str) : list str :=
  filter (endswith ext) entries.

(** The result is the printed lines and the returned value; Python's
    [None] of the early [return] is [None]. *)
Definition generate_midi_songs_json (w : World)
  : list str * result (option (list Song.t)) :=
  match midi_dir w with
  | None => ([lit "MIDI directory midi not found!"], Ok None)
  | Some entries =>
      let midi_files := glob ".mid" entries ++ glob ".midi" entries in
      ([], songs <- for_midi_files midi_files [] ;; Ok (Some songs))
  end.

(** ** Dictionaries *)

(** [d[key]] on a dictionary kept as its items in insertion order;
    [None] stands for [KeyError]. *)
Fixpoint dict_get {V : Type} (key : str) (d : list (str * V)) : option V :=
  match d with
  | [] => None
  | (k, v) :: d' => if Py.eqb k key then Some v else dict_get key d'
  end.

(** ** Formatting *)

Definition dquote : ascii := "034"%char.
Definition newline : ascii := "010"%char.

(** [sep.join(parts)] *)
Fixpoint join (sep : str) (parts : list str) : str :=
  match parts with
  | [] => []
  | [p] => p
  | p :: rest => p ++ sep ++ join sep rest
  end.

(** [str(n)] for an integer *)
Definition of_Z (n : Z) : str :=
  lit (DecimalString.NilZero.string_of_int (Z.to_int n)).

Definition hex_digit (n : N) : ascii :=
  if (n <? 10)%N then ascii_of_N (48 + n) else ascii_of_N (87 + n).

(** One character of a string as [json] writes it with [ensure_ascii]:
    the quote, the backslash and every character outside the range from
    the space to the tilde are escaped. *)
Definition json_char (c : ascii) : str :=
  let n := N_of_ascii c in
  if (n =? 34)%N then ["\"%char; dquote]
  else if (n =? 92)%N then lit "\\"
  else if (n =? 8)%N then lit "\b"
  else if (n =? 12)%N then lit "\f"
  else if (n =? 10)%N then lit "\n"
  else if (n =? 13)%N then lit "\r"
  else if (n =? 9)%N then lit "\t"
  else if ((32 <=? n) && (n <=? 126))%N then [c]
  else lit "\u00" ++ [hex_digit (n / 16); hex_digit (n mod 16)].

Definition json_string (s : str) : str :=
  dquote :: flat_map json_char s ++ [dquote].

(** [json.dumps(l)] for a list of strings *)
Definition json_dumps_strings (l : list str) : str :=
  lit "[" ++ join ", " (map json_string l) ++ lit "]".

(** ** The printed listing *)

(** Lines 199-219: what one turn of the listing loop prints for the song
    at position [i] of [len] songs.  The second component is the key of a
    [KeyError], after which nothing more is printed. *)
Definition listing_of_song (len i : Z) (song : Song.t)
  : list str * option str :=
  let before :=
    [lit "  {";
     lit "    id: '" ++ Song.id song ++ lit "',";
     lit "    title: '" ++ Song.title song ++ lit "',";
     lit "    artist: '" ++ Song.artist song ++ lit "',";
     lit "    duration: '" ++ Song.duration song ++ lit "',";
     lit "    difficulties: "
     ++ json_dumps_strings (Song.difficulties song) ++ lit ",";
     lit "    bpm: " ++ of_Z (Song.bpm song) ++ lit ",";
     lit "    format: 'midi',";
     lit "    overallDifficulty: "
     ++ of_Z (Song.overallDifficulty song) ++ lit ",";
     lit "    soundFont: '" ++ Song.soundFont song ++ lit "',";
     lit "    midiFiles: {"] in
  match dict_get "easy" (Song.midiFiles song) with
  | None => (before, Some (lit "easy"))
  | Some url =>
      (before ++
       [lit "      easy: '" ++ url ++ lit "'";
        lit "    },";
        lit "    notes: {";
        lit "      easy: []";
        lit "    }";
        if (i <? len - 1)%Z then lit "  }," else lit "  }"],
       None)
  end.

(** The loop of lines 198-219, from position [i] on. *)
Fixpoint listing_loop (len i : Z) (songs : list Song.t)
  : list str * option str :=
  match songs with
  | [] => ([], None)
  | song :: rest =>
      match listing_of_song len i song with
      | (printed, Some key) => (printed, Some key)
      | (printed, None) =>
          let (more, err) := listing_loop len (i + 1) rest in
          (printed ++ more, err)
      end
  end.

(** Lines 193-197 *)
Definition listing_header : list str :=
  [newline :: repeat "="%char 50;
   lit "TypeScript-like structure:";
   repeat "="%char 50;
   lit "export const midiSongs: MidiSong[] = ["].

(** Lines 193-220: the strings given to [print], in order. *)
Definition listing (midi_songs : list Song.t) : list str * option str :=
  match listing_loop (Z.of_nat (List.length midi_songs)) 0 midi_songs with
  | (printed, Some key) => (listing_header ++ printed, Some key)
  | (printed, None) => (listing_header ++ printed ++ [lit "];"], None)
  end.

(** ** The driver *)

Record Catalog : Type := {
  midiSongs : list Song.t;
  allSongs : list Song.t
}.

Record Outcome : Type := {
  stdout : list str;            (* the strings given to [print], in order *)
  written : option Catalog;     (* what [json.dump] wrote, if it ran *)
  status : result unit          (* [Raise e]: [e] leaves the function *)
}.

(** [not midi_songs] *)
Definition falsy (midi_songs : option (list Song.t)) : bool :=
  match midi_songs with
  | None | Some [] => true
  | Some (_ :: _) => false
  end.

(** The body of the [try], lines 173-220: the early returns, the write
    and the listing.  A key missing in the listing raises after the file
    is written. *)
Definition main_try (w : World) : Outcome :=
  let (printed, r) := generate_midi_songs_json w in
  match r with
  | Raise e => Build_Outcome printed None (Raise e)
  | Ok midi_songs =>
      if falsy midi_songs then
        Build_Outcome (printed ++ [lit "No MIDI songs found!"]) None (Ok tt)
      else
        let songs := match midi_songs with Some l => l | None => [] end in
        let output := {| midiSongs := songs; allSongs := songs |} in
        match open_error w with
        | Some msg => Build_Outcome printed None (Raise (OSError msg))
        | None =>
            let (listed, missing) := listing songs in
            Build_Outcome
              (printed ++
               [lit "Generated database with " ++ of_nat (List.length songs)
                ++ lit " MIDI songs";
                lit "Saved to: midi_songs_database.json"]
               ++ listed)
              (Some output)
              (match missing with
               | None => Ok tt
               | Some key => Raise (KeyError key)
               end)
        end
  end.

(** Lines 168-223: [except Exception as e] prints the error and the
    function returns. *)
Definition main (w : World) : Outcome :=
  let o := main_try w in
  match status o with
  | Ok _ =>
      Build_Outcome (lit "Analyzing MIDI files..." :: stdout o)
                    (written o) (Ok tt)
  | Raise e =>
      Build_Outcome
        (lit "Analyzing MIDI files..." :: stdout o
         ++ [lit "Error: " ++ exn_message e])
        (written o) (Ok tt)
  end.

(** ** Regular expressions

    The language of a pattern, and a matcher by derivatives that decides
    it.  [re.match] with a pattern between [^] and [$] succeeds on a string
    with no line break exactly when the string is in the language. *)

Module Re.

Inductive t : Type :=
| Void
| Eps
| Class (p : ascii -> bool)
| Cat (r1 r2 : t)
| Alt (r1 r2 : t)
| Star (r : t).

Inductive matches : t -> str -> Prop :=
| MEps : matches Eps []
| MClass p c : p c = true -> matches (Class p) [c]
| MCat r1 r2 s1 s2 :
    matches r1 s1 -> matches r2 s2 -> matches (Cat r1 r2) (s1 ++ s2)
| MAltL r1 r2 s : matches r1 s -> matches (Alt r1 r2) s
| MAltR r1 r2 s : matches r2 s -> matches (Alt r1 r2) s
| MStar0 r : matches (Star r) []
| MStarS r s1 s2 :
    matches r s1 -> matches (Star r) s2 -> matches (Star r) (s1 ++ s2).

Fixpoint nullable (r : t) : bool :=
  match r with
  | Void => false
  | Eps => true
  | Class _ => false
  | Cat r1 r2 => nullable r1 && nullable r2
  | Alt r1 r2 => nullable r1 || nullable r2
  | Star _ => true
  end.

Fixpoint deriv (c : ascii) (r : t) : t :=
  match r with
  | Void => Void
  | Eps => Void
  | Class p => if p c then Eps else Void
  | Cat r1 r2 =>
      if nullable r1 then Alt (Cat (deriv c r1) r2) (deriv c r2)
      else Cat (deriv c r1) r2
  | Alt r1 r2 => Alt (deriv c r1) (deriv c r2)
  | Star r1 => Cat (deriv c r1) (Star r1)
  end.

Fixpoint matchb (r : t) (s : str) : bool :=
  match s with
  | [] => nullable r
  | c :: s' => matchb (deriv c r) s'
  end.

(** [r+] *)
Definition plus (r : t) : t := Cat r (Star r).

(** A literal string *)
Fixpoint literal (s : str) : t :=
  match s with
  | [] => Eps
  | c :: s' => Cat (Class (Ascii.eqb c)) (literal s')
  end.

End Re.

(** [[a-z0-9]+] *)
Definition word : Re.t := Re.plus (Re.Class is_lower_alnum).

(** [(-[a-z0-9]+)*] *)
Definition more_words : Re.t :=
  Re.Star (Re.Cat (Re.Class (Ascii.eqb hyphen)) word).

(** [^[a-z0-9]+(-[a-z0-9]+)*-midi$] *)
Definition id_pattern : Re.t :=
  Re.Cat word (Re.Cat more_words (Re.literal "-midi")).

(** ** Conditions of the keyword chain *)

(** Some rule of lines 35-100, those tried before the beach town rule,
    applies to the lowercased name [l]. *)
Definition before_beach_town (l : str) : bool :=
  contains "twinkle" l
  || (contains "beethoven" l || contains "moonlight" l)
  || (contains "debussy" l || contains "clair" l)
  || contains "metallica" l
  || (contains "michael jackson" l || contains "billie jean" l)
  || (contains "nirvana" l || contains "smells" l)
  || (contains "owl city" l || contains "fireflies" l)
  || contains "pokemon" l
  || (contains "smash" l && contains "mouth" l)
  || contains "final countdown" l
  || (contains "toto" l || contains "africa" l)
  || (contains "wii" l && contains "theme" l)
  || contains "mii channel" l
  || contains "super smash" l
  || contains "mountain king" l
  || (contains "titanic" l || contains "heart" l)
  || contains "backstreet" l
  || contains "dooms-gate" l
  || contains "spearsofjustice" l
  || contains "test-drive" l
  || (contains "desert" l || contains "canyon" l).

(** Some rule of the chain applies. *)
Definition some_rule (l : str) : bool :=
  before_beach_town l || (contains "beach" l && contains "town" l).

(** Deleting the occurrences of [old] cannot hide an occurrence of the
    keyword [w]: no character of [old] lowers to the first character of
    [w], and the first character of [old] lowers to none of [w]. *)
Definition keeps_keyword (old w : str) : bool :=
  match old, w with
  | d :: _, w0 :: _ =>
      forallb (fun c => negb (Ascii.eqb (lower_char c) w0)) old
      && forallb (fun a => negb (Ascii.eqb (lower_char d) a)) w
  | _, _ => false
  end.

(** The characters that [strip('-')] removes. *)
Definition is_hyphen (c : ascii) : bool := existsb (Ascii.eqb c) (lit "-").


(** No two hyphens side by side. *)
Fixpoint single_hyphens (s : str) : Prop :=
  match s with
  | [] => True
  | c :: s' =>
      match s' with
      | c' :: _ => (c = hyphen -> c' <> hyphen) /\ single_hyphens s'
      | [] => True
      end
  end.

(** Only [a-z0-9] and hyphens. *)
Definition slug_chars (s : str) : Prop :=
  Forall (fun c => is_lower_alnum c = true \/ c = hyphen) s.

(** ** JSON text *)

(** The values [json.dump] is given here. *)
#[local] Unset Elimination Schemes.
#[local] Set Elimination Schemes.













(** * Properties *)

(** ** The model on small inputs *)

Example replace_leftmost : replace ".mid" "" "a.midi.mid" = lit "ai".
Proof. vm_compute. reflexivity. Qed.

Example replace_empty_old : replace "" "-" "ab" = lit "-a-b-".
Proof. vm_compute. reflexivity. Qed.

Example split1_first :
  split1 " - " "a - b - c" = [lit "a"; lit "b - c"].
Proof. vm_compute. reflexivity. Qed.

Example strip_spaces : strip "  a b  " = lit "a b".
Proof. vm_compute. reflexivity. Qed.

Example lower_mixed : lower "MiXed-09" = lit "mixed-09".
Proof. vm_compute. reflexivity. Qed.

Example hyphen_runs : sub_hyphen_runs "--a---b-" = lit "-a-b-".
Proof. vm_compute. reflexivity. Qed.

Example classify_queen :
  extract_song_info_from_filename "Queen - Bohemian Rhapsody.mid"
  = Ok (Info.Build (lit "Bohemian Rhapsody") (lit "Queen") [lit "easy"] 5).
Proof. vm_compute. reflexivity. Qed.

Example main_unwritable :
  main {| midi_dir := Some [lit "a.mid"]; open_error := Some (lit "denied") |}
  = {| stdout := [lit "Analyzing MIDI files..."; lit "Error: denied"];
       written := None;
       status := Ok tt |}.
Proof. vm_compute. reflexivity. Qed.

(** ** Strings *)

Lemma startswith_app (p r : str) : startswith p (p ++ r) = true.
Proof.
  induction p as [|a p IH]; simpl; [reflexivity|].
  now rewrite Ascii.eqb_refl.
Qed.

Lemma startswith_inv (p s : str) :
  startswith p s = true -> exists r, s = p ++ r.
Proof.
  revert s; induction p as [|a p IH]; intros s H.
  - now exists s.
  - destruct s as [|b s]; simpl in H; [discriminate|].
    apply andb_true_iff in H as [Hab Hp].
    apply Ascii.eqb_eq in Hab; subst b.
    destruct (IH _ Hp) as [r ->]. now exists r.
Qed.

Lemma startswith_skipn (p s : str) :
  startswith p s = true -> s = p ++ skipn (List.length p) s.
Proof.
  intros H. destruct (startswith_inv _ _ H) as [r ->].
  now rewrite skipn_app, skipn_all, Nat.sub_diag.
Qed.

Lemma startswith_longer (p s r : str) :
  startswith p s = true -> startswith p (s ++ r) = true.
Proof.
  intros H. destruct (startswith_inv _ _ H) as [q ->].
  rewrite <- app_assoc. apply startswith_app.
Qed.

Lemma contains_cons (sub : str) (c : ascii) (s : str) :
  contains sub s = true -> contains sub (c :: s) = true.
Proof. intros H; simpl. rewrite H. apply orb_true_r. Qed.

Lemma startswith_contains (sub s : str) :
  startswith sub s = true -> contains sub s = true.
Proof. intros H. destruct s; simpl in *; now rewrite H. Qed.

Lemma contains_app (a sub b : str) : contains sub (a ++ sub ++ b) = true.
Proof.
  induction a as [|c a IH]; simpl.
  - apply startswith_contains, startswith_app.
  - rewrite IH. apply orb_true_r.
Qed.

Lemma contains_inv (sub s : str) :
  contains sub s = true -> exists a b, s = a ++ sub ++ b.
Proof.
  induction s as [|c s IH]; simpl; intros H.
  - rewrite orb_false_r in H. destruct (startswith_inv _ _ H) as [r Hr].
    now exists [], r.
  - apply orb_true_iff in H as [H|H].
    + destruct (startswith_inv _ _ H) as [r Hr]. now exists [], r.
    + destruct (IH H) as (a & b & ->). now exists (c :: a), b.
Qed.

Lemma cut_inv (sep s a b : str) :
  cut sep s = Some (a, b) -> s = a ++ sep ++ b.
Proof.
  revert a; induction s as [|c s IH]; intros a; simpl.
  - destruct (startswith sep []) eqn:E; [|discriminate].
    intros [= <- <-]. now apply startswith_skipn in E.
  - destruct (startswith sep (c :: s)) eqn:E.
    + intros [= <- <-]. now apply startswith_skipn in E.
    + destruct (cut sep s) as [[a' b']|]; [|discriminate].
      intros [= <- <-]. simpl. f_equal. now apply IH.
Qed.

Lemma contains_cut (sep s : str) :
  contains sep s = true -> exists a b, cut sep s = Some (a, b).
Proof.
  induction s as [|c s IH]; simpl; intros H.
  - rewrite orb_false_r in H. rewrite H. eauto.
  - destruct (startswith sep (c :: s)); [eauto|].
    simpl in H. destruct (IH H) as (a & b & ->). eauto.
Qed.

(** ** [replace] *)

Section Replace.

Variables old new : str.

Lemma replace_from_skip (k : nat) (s : str) :
  replace_from old new k s = replace_from old new 0 (skipn k s).
Proof.
  revert k; induction s as [|c s IH]; intros [|k]; try reflexivity.
  simpl. apply IH.
Qed.

Lemma replace_from_nil (k : nat) : replace_from old new k [] = [].
Proof. reflexivity. Qed.

Hypothesis old_nonempty : old <> [].

Lemma replace_from_found (r : str) :
  replace_from old new 0 (old ++ r) = new ++ replace_from old new 0 r.
Proof.
  destruct old as [|d o'] eqn:E; [contradiction|].
  change ((d :: o') ++ r) with (d :: (o' ++ r)).
  cbn [replace_from].
  change (d :: o' ++ r) with ((d :: o') ++ r) at 1.
  rewrite startswith_app.
  assert (Hr : skipn (List.length (d :: o') - 1) (o' ++ r) = r).
  { simpl. now rewrite Nat.sub_0_r, skipn_app, skipn_all, Nat.sub_diag. }
  rewrite <- E, replace_from_skip. rewrite E at 2. now rewrite Hr.
Qed.

Lemma replace_from_other (c : ascii) (s : str) :
  startswith old (c :: s) = false ->
  replace_from old new 0 (c :: s) = c :: replace_from old new 0 s.
Proof. intros H. cbn [replace_from]. now rewrite H. Qed.

End Replace.

(** *** Keywords survive the deletion of an extension *)

Section KeepsKeyword.

Variables old w : str.
Hypothesis keeps : keeps_keyword old w = true.

Lemma keeps_shape :
  exists d o' w0 w',
    old = d :: o' /\ w = w0 :: w' /\
    (forall c, In c old -> Ascii.eqb w0 (lower_char c) = false) /\
    (forall a, In a w -> Ascii.eqb (lower_char d) a = false).
Proof.
  pose proof keeps as K. unfold keeps_keyword in K.
  destruct old as [|d o']; [discriminate|].
  destruct w as [|w0 w']; [discriminate|].
  apply andb_true_iff in K as [K1 K2].
  rewrite forallb_forall in K1, K2.
  exists d, o', w0, w'. repeat split.
  - intros c Hc. rewrite Ascii.eqb_sym. apply negb_true_iff, K1, Hc.
  - intros a Ha. apply negb_true_iff, K2, Ha.
Qed.

Lemma keeps_old_nonempty : old <> [].
Proof. destruct keeps_shape as (d & o' & _ & _ & E & _). now rewrite E. Qed.

Lemma contains_past (p r : str) :
  incl p old -> contains w (lower (p ++ r)) = contains w (lower r).
Proof.
  destruct keeps_shape as (d & o' & w0 & w' & _ & Ew & Hfirst & _).
  induction p as [|c p IH]; intros Hp; [reflexivity|].
  assert (Hc : In c old) by (apply Hp; now left).
  assert (Hp' : incl p old) by (intros x Hx; apply Hp; now right).
  rewrite <- (IH Hp'). rewrite Ew. simpl.
  now rewrite (Hfirst c Hc).
Qed.

Lemma startswith_kept (v s : str) :
  incl v w ->
  startswith v (lower s) = true ->
  startswith v (lower (replace_from old [] 0 s)) = true.
Proof.
  destruct keeps_shape as (d & o' & w0 & w' & Eo & _ & _ & Hhead).
  revert s; induction v as [|a v IH]; intros s Hv H; [reflexivity|].
  destruct s as [|c s]; [discriminate|].
  simpl in H. apply andb_true_iff in H as [Hac Hs].
  apply Ascii.eqb_eq in Hac.
  assert (Hd : startswith old (c :: s) = false).
  { rewrite Eo. simpl. destruct (Ascii.eqb d c) eqn:Edc; [|reflexivity].
    apply Ascii.eqb_eq in Edc; subst c.
    assert (Ha : In a w) by (apply Hv; now left).
    specialize (Hhead a Ha). rewrite Hac, Ascii.eqb_refl in Hhead.
    discriminate. }
  rewrite replace_from_other by exact Hd.
  simpl. rewrite Hac, Ascii.eqb_refl. simpl.
  apply IH; [|exact Hs]. intros x Hx; apply Hv; now right.
Qed.

Lemma contains_kept_bounded (n : nat) (s : str) :
  List.length s <= n ->
  contains w (lower s) = true ->
  contains w (lower (replace_from old [] 0 s)) = true.
Proof.
  destruct keeps_shape as (d & o' & w0 & w' & Eo & Ew & _).
  revert s; induction n as [|n IH]; intros s Hn H.
  - destruct s; [|simpl in Hn; lia]. exact H.
  - destruct s as [|c s]; [exact H|].
    destruct (startswith old (c :: s)) eqn:E.
    + destruct (startswith_inv _ _ E) as [r Hr]. rewrite Hr in H, Hn |- *.
      rewrite (replace_from_found old [] keeps_old_nonempty). simpl.
      rewrite contains_past in H by apply incl_refl.
      apply IH; [|exact H].
      rewrite length_app, Eo in Hn. simpl in Hn. lia.
    + rewrite replace_from_other by exact E.
      change (lower (c :: s)) with (lower_char c :: lower s) in H.
      change (lower (c :: ?x)) with (lower_char c :: lower x).
      assert (H' : startswith w (lower (c :: s)) = true
                   \/ contains w (lower s) = true).
      { simpl in H. apply orb_true_iff in H. exact H. }
      destruct H' as [H'|H'].
      * pose proof (startswith_kept w (c :: s) (incl_refl _) H') as K.
        rewrite replace_from_other in K by exact E.
        now apply startswith_contains.
      * apply contains_cons, IH; [simpl in Hn; lia | exact H'].
Qed.

Lemma contains_kept (s : str) :
  contains w (lower s) = true ->
  contains w (lower (replace old [] s)) = true.
Proof.
  intros H.
  destruct keeps_shape as (d & o' & _ & _ & Eo & _).
  assert (E : replace old [] s = replace_from old [] 0 s)
    by now rewrite Eo.
  rewrite E. apply contains_kept_bounded with (n := List.length s); auto.
Qed.

End KeepsKeyword.

(** A keyword found in the lowercased filename is found in the lowercased
    name. *)
Lemma keyword_survives (w filename : str) :
  keeps_keyword ".mid" w = true ->
  keeps_keyword ".midi" w = true ->
  contains w (lower filename) = true ->
  contains w (lower (strip_extension filename)) = true.
Proof.
  intros K1 K2 H. unfold strip_extension.
  apply contains_kept; [exact K2|]. apply contains_kept; [exact K1|exact H].
Qed.

(** *** Every occurrence is deleted *)

Section Splice.

Variables (d : ascii) (o' new : str).
Hypothesis head_once : ~ In d o'.

Lemma startswith_before (o a y : str) :
  ~ In d o -> startswith o (a ++ d :: y) = true -> startswith o a = true.
Proof.
  revert a; induction o as [|e o IH]; intros a Hd H; [reflexivity|].
  destruct a as [|c a]; simpl in H.
  - apply andb_true_iff in H as [H _]. apply Ascii.eqb_eq in H.
    subst e. destruct Hd. now left.
  - apply andb_true_iff in H as [Hc H]. simpl. rewrite Hc. simpl.
    apply IH; [|exact H]. intros Hin; apply Hd; now right.
Qed.

Lemma replace_from_splice_bounded (n : nat) (a b : str) :
  List.length a <= n ->
  replace_from (d :: o') new 0 (a ++ (d :: o') ++ b)
  = replace_from (d :: o') new 0 a ++ new ++ replace_from (d :: o') new 0 b.
Proof.
  assert (Hold : d :: o' <> []) by discriminate.
  revert a; induction n as [|n IH]; intros a Hn.
  - destruct a; [|simpl in Hn; lia].
    change ([] ++ (d :: o') ++ b) with ((d :: o') ++ b).
    now rewrite (replace_from_found (d :: o') new Hold).
  - destruct a as [|c a].
    + change ([] ++ (d :: o') ++ b) with ((d :: o') ++ b).
      now rewrite (replace_from_found (d :: o') new Hold).
    + destruct (startswith (d :: o') ((c :: a) ++ (d :: o') ++ b)) eqn:E.
      * assert (Ea : startswith (d :: o') (c :: a) = true).
        { simpl in E |- *.
          apply andb_true_iff in E as [Ec E]. rewrite Ec. simpl.
          now apply startswith_before in E. }
        destruct (startswith_inv _ _ Ea) as [r Hr]. rewrite Hr.
        rewrite <- app_assoc, !(replace_from_found (d :: o') new Hold).
        rewrite IH, app_assoc; [reflexivity|].
        rewrite Hr, length_app in Hn. simpl in Hn. lia.
      * assert (Ea : startswith (d :: o') (c :: a) = false).
        { destruct (startswith (d :: o') (c :: a)) eqn:Ea; [|reflexivity].
          now rewrite (startswith_longer _ _ ((d :: o') ++ b) Ea) in E. }
        change ((c :: a) ++ (d :: o') ++ b) with (c :: (a ++ (d :: o') ++ b)) in *.
        rewrite !replace_from_other by assumption.
        rewrite IH by (simpl in Hn; lia). reflexivity.
Qed.

Lemma replace_splice (a b : str) :
  replace (d :: o') new (a ++ (d :: o') ++ b)
  = replace (d :: o') new a ++ new ++ replace (d :: o') new b.
Proof. apply replace_from_splice_bounded with (n := List.length a); auto. Qed.

End Splice.

(** ** The matcher decides the language *)

Section Derivatives.

Import Re.

Lemma nullable_spec (r : Re.t) : nullable r = true <-> matches r [].
Proof.
  split.
  - induction r; simpl; intros H; try discriminate.
    + constructor.
    + apply andb_true_iff in H as [H1 H2].
      change (@nil ascii) with (@nil ascii ++ []). constructor; auto.
    + apply orb_true_iff in H as [H|H];
        [apply MAltL | apply MAltR]; auto.
    + constructor.
  - induction r; intros H; inversion H; subst; simpl; auto.
    + match goal with E : _ ++ _ = [] |- _ =>
        apply app_eq_nil in E as [-> ->] end.
      rewrite IHr1, IHr2; auto.
    + rewrite IHr1; auto.
    + rewrite IHr2; auto with bool.
Qed.

Lemma cat_inv (r1 r2 : Re.t) (s : str) :
  matches (Cat r1 r2) s ->
  exists s1 s2, s = s1 ++ s2 /\ matches r1 s1 /\ matches r2 s2.
Proof. intros H. inversion H; subst. eauto. Qed.

Lemma star_cons_inv (r : Re.t) (c : ascii) (s : str) :
  matches (Star r) (c :: s) ->
  exists s1 s2, s = s1 ++ s2 /\ matches r (c :: s1) /\ matches (Star r) s2.
Proof.
  remember (Star r) as R eqn:ER. remember (c :: s) as x eqn:Ex.
  intros H. revert r c s ER Ex.
  induction H; intros r0 c0 s0 ER Ex; try discriminate.
  injection ER as ->.
  destruct s1 as [|a s1].
  - simpl in Ex. eapply IHmatches2; eauto.
  - injection Ex as E1 E2. subst. exists s1, s2. auto.
Qed.

Lemma deriv_spec (r : Re.t) (c : ascii) (s : str) :
  matches (deriv c r) s <-> matches r (c :: s).
Proof.
  revert s; induction r as [| |p|r1 IH1 r2 IH2|r1 IH1 r2 IH2|r IH];
    intros s; simpl.
  - split; intros H; inversion H.
  - split; intros H; inversion H.
  - destruct (p c) eqn:E; split; intros H; inversion H; subst.
    + now constructor.
    + constructor.
    + congruence.
  - split.
    + intros H.
      assert (K : matches (Cat (deriv c r1) r2) s
                  \/ (nullable r1 = true /\ matches (deriv c r2) s)).
      { destruct (nullable r1); [|now left].
        inversion H; subst; auto. }
      destruct K as [K|[N K]].
      * inversion K; subst.
        change (c :: s1 ++ s2) with ((c :: s1) ++ s2).
        constructor; [apply IH1|]; assumption.
      * change (c :: s) with ([] ++ c :: s).
        constructor; [now apply nullable_spec | now apply IH2].
    + intros H. apply cat_inv in H as (s1 & s2 & E & H1 & H2).
      destruct s1 as [|a s1].
      * simpl in E; subst s2.
        apply nullable_spec in H1. rewrite H1.
        apply MAltR. now apply IH2.
      * injection E as E1 E2. subst a s.
        assert (K : matches (Cat (deriv c r1) r2) (s1 ++ s2))
          by (constructor; [apply IH1|]; assumption).
        destruct (nullable r1); [now apply MAltL | exact K].
  - split; intros H; inversion H; subst.
    + apply MAltL. now apply IH1.
    + apply MAltR. now apply IH2.
    + apply MAltL. now apply IH1.
    + apply MAltR. now apply IH2.
  - split; intros H.
    + inversion H; subst.
      change (c :: s1 ++ s2) with ((c :: s1) ++ s2).
      constructor; [apply IH|]; assumption.
    + apply star_cons_inv in H as (s1 & s2 & -> & H1 & H2).
      constructor; [apply IH|]; assumption.
Qed.

Lemma matchb_spec (r : Re.t) (s : str) : matchb r s = true <-> matches r s.
Proof.
  revert r; induction s as [|c s IH]; intros r; simpl.
  - apply nullable_spec.
  - rewrite IH. apply deriv_spec.
Qed.

Lemma literal_matches (s : str) : matches (literal s) s.
Proof.
  induction s as [|c s IH]; simpl; [constructor|].
  change (c :: s) with ([c] ++ s).
  constructor; [|exact IH]. constructor. apply Ascii.eqb_refl.
Qed.

End Derivatives.

(** ** Stripping *)

Section Strip.

Variable p : ascii -> bool.

Lemma lstrip_suffix (s : str) : exists t, s = t ++ lstrip_by p s.
Proof.
  induction s as [|c s [t IH]]; simpl; [now exists []|].
  destruct (p c); [|now exists []].
  exists (c :: t). simpl. now f_equal.
Qed.

Lemma lstrip_head (s : str) (c : ascii) (r : str) :
  lstrip_by p s = c :: r -> p c = false.
Proof.
  induction s as [|a s IH]; simpl; [discriminate|].
  destruct (p a) eqn:E; [exact IH|]. now intros [= <- _].
Qed.

Lemma lstrip_keeps (s : str) (c : ascii) :
  p c = false -> In c s -> In c (lstrip_by p s).
Proof.
  intros Hc. induction s as [|a s IH]; simpl; [auto|].
  intros [->|H]; [rewrite Hc; now left|].
  destruct (p a); [auto | now right].
Qed.

Lemma rstrip_prefix (s : str) : exists t, s = rstrip_by p s ++ t.
Proof.
  induction s as [|c s [t IH]]; simpl; [now exists []|].
  destruct (rstrip_by p s) as [|a r].
  - destruct (p c); [now exists (c :: s) | now exists s].
  - exists t. simpl in *. now f_equal.
Qed.

Lemma rstrip_last (s q : str) (c : ascii) :
  p c = true -> rstrip_by p s <> q ++ [c].
Proof.
  intros Hc. revert q; induction s as [|a s IH]; intros q; simpl.
  - now destruct q.
  - destruct (rstrip_by p s) as [|b r] eqn:E.
    + destruct (p a) eqn:Ea; [now destruct q|].
      destruct q as [|x q]; simpl; [|now destruct q].
      intros [= ->]. congruence.
    + destruct q as [|x q]; simpl; [discriminate|].
      intros [= -> K]. now apply (IH q).
Qed.

Lemma rstrip_keeps (s : str) (c : ascii) :
  p c = false -> In c s -> In c (rstrip_by p s).
Proof.
  intros Hc. induction s as [|a s IH]; simpl; [auto|].
  intros H. destruct (rstrip_by p s) as [|b r] eqn:E.
  - destruct H as [->|H]; [rewrite Hc; now left|]. now destruct (IH H).
  - destruct H as [->|H]; [now left | right; auto].
Qed.

Lemma rstrip_fixed (s : str) (c : ascii) :
  p c = false -> rstrip_by p (s ++ [c]) = s ++ [c].
Proof.
  intros Hc. induction s as [|a s IH]; simpl; [now rewrite Hc|].
  rewrite IH. now destruct s.
Qed.



Lemma strip_all (s : str) : forallb p s = true -> strip_by p s = [].
Proof.
  unfold strip_by. induction s as [|c s IH]; simpl; [reflexivity|].
  intros H. apply andb_true_iff in H as [Hc H]. rewrite Hc. auto.
Qed.

End Strip.

(** ** The shape of a slug *)

Lemma is_hyphen_true (c : ascii) : is_hyphen c = true <-> c = hyphen.
Proof.
  unfold is_hyphen. simpl. rewrite orb_false_r. apply Ascii.eqb_eq.
Qed.

Lemma is_hyphen_false (c : ascii) : is_hyphen c = false <-> c <> hyphen.
Proof.
  rewrite <- is_hyphen_true. now destruct (is_hyphen c).
Qed.

Lemma alnum_not_hyphen (c : ascii) : is_lower_alnum c = true -> c <> hyphen.
Proof. intros H ->. discriminate. Qed.

Lemma slug_chars_sub (s : str) : slug_chars (sub_non_alnum s).
Proof.
  unfold slug_chars, sub_non_alnum. apply Forall_map, Forall_forall.
  intros c _. destruct (is_lower_alnum c) eqn:E; auto.
Qed.

Lemma slug_chars_runs (s : str) :
  slug_chars s -> slug_chars (sub_hyphen_runs s).
Proof.
  unfold slug_chars. induction 1 as [|c s Hc Hs IH]; simpl; [constructor|].
  destruct (Ascii.eqb c hyphen); [|now constructor].
  destruct s as [|c' s']; [now constructor|].
  destruct (Ascii.eqb c' hyphen); [exact IH | now constructor].
Qed.

(** After the runs are replaced, the first character is the one the
    string began with, and a hyphen is never followed by another. *)
Lemma runs_shape (s : str) :
  single_hyphens (sub_hyphen_runs s) /\
  forall c s', s = c :: s' ->
    exists t, sub_hyphen_runs s = c :: t /\
      (c = hyphen -> forall c' t', t = c' :: t' -> c' <> hyphen).
Proof.
  induction s as [|c s [IH1 IH2]]; [split; [exact I | discriminate]|].
  assert (G : exists t, sub_hyphen_runs (c :: s) = c :: t /\
    single_hyphens (c :: t) /\
    (c = hyphen -> forall c' t', t = c' :: t' -> c' <> hyphen)).
  { simpl. destruct (Ascii.eqb c hyphen) eqn:Ec.
    - apply Ascii.eqb_eq in Ec. subst c.
      destruct s as [|c' s']; [exists []; repeat split; discriminate|].
      destruct (IH2 c' s' eq_refl) as (t & Et & Ht).
      destruct (Ascii.eqb c' hyphen) eqn:Ec'.
      + apply Ascii.eqb_eq in Ec'. subst c'.
        exists t. rewrite Et in IH1 |- *. auto.
      + apply Ascii.eqb_neq in Ec'.
        exists (sub_hyphen_runs (c' :: s')). rewrite Et in IH1 |- *.
        repeat split; auto. now intros _ ? ? [= <- _].
    - apply Ascii.eqb_neq in Ec.
      exists (sub_hyphen_runs s). split; [reflexivity|].
      split; [|congruence].
      simpl. destruct (sub_hyphen_runs s); [exact I|].
      split; [congruence | exact IH1]. }
  destruct G as (t & Et & Hs & Ht). split; [now rewrite Et|].
  intros ? ? [= <- <-]. eauto.
Qed.

Lemma runs_keeps (s : str) (c : ascii) :
  c <> hyphen -> In c s -> In c (sub_hyphen_runs s).
Proof.
  intros Hc. induction s as [|a s IH]; [auto|].
  intros H. simpl. destruct (Ascii.eqb a hyphen) eqn:Ea.
  - apply Ascii.eqb_eq in Ea. subst a.
    destruct H as [E|H]; [congruence|].
    destruct s as [|c' s']; [destruct H|].
    destruct (Ascii.eqb c' hyphen); [auto | right; auto].
  - destruct H as [->|H]; [now left | right; auto].
Qed.

Lemma single_hyphens_app (a b : str) :
  single_hyphens (a ++ b) -> single_hyphens a /\ single_hyphens b.
Proof.
  induction a as [|c a IH]; simpl; [auto|].
  destruct a as [|c' a'].
  - simpl in *. destruct b; [auto|]. intros [_ H]; auto.
  - simpl in *. intros [H1 H2]. destruct (IH H2). auto.
Qed.

Lemma word_one (c : ascii) :
  is_lower_alnum c = true -> Re.matches word [c].
Proof.
  intros H. change [c] with ([c] ++ []).
  constructor; constructor. exact H.
Qed.

Lemma word_cons (c : ascii) (w : str) :
  is_lower_alnum c = true -> Re.matches word w -> Re.matches word (c :: w).
Proof.
  intros Hc H. apply cat_inv in H as (s1 & s2 & -> & H1 & H2).
  change (c :: s1 ++ s2) with ([c] ++ (s1 ++ s2)).
  constructor; [now constructor|]. now constructor.
Qed.

(** A string of slug characters with single hyphens and no hyphen at its
    end is a word followed by hyphen-led words when it begins with a
    letter or digit, and a sequence of hyphen-led words otherwise. *)
Lemma slug_shape (u : str) :
  slug_chars u -> single_hyphens u -> (forall q, u <> q ++ [hyphen]) ->
  (forall c r, u = c :: r -> c <> hyphen ->
     exists w t, u = w ++ t /\ Re.matches word w /\ Re.matches more_words t)
  /\ ((forall c r, u = c :: r -> c = hyphen) -> Re.matches more_words u).
Proof.
  induction u as [|c r IH]; intros Hch Hs Hl.
  - split; [discriminate | intros _; constructor].
  - assert (Hch' : slug_chars r) by now inversion Hch.
    assert (Hc : is_lower_alnum c = true \/ c = hyphen) by now inversion Hch.
    assert (Hs' : single_hyphens r).
    { simpl in Hs. destruct r; [exact I | apply Hs]. }
    assert (Hl' : forall q, r <> q ++ [hyphen]).
    { intros q E. apply (Hl (c :: q)). simpl. now f_equal. }
    destruct (IH Hch' Hs' Hl') as [IHA IHB]. split.
    + intros ? ? [= <- <-] Hne. destruct Hc as [Hc|Hc]; [|contradiction].
      destruct r as [|c' r'].
      * exists [c], []. repeat split; [now apply word_one | constructor].
      * destruct (ascii_dec c' hyphen) as [E|E].
        -- exists [c], (c' :: r'). repeat split; [now apply word_one|].
           apply IHB. now intros ? ? [= <- _].
        -- destruct (IHA c' r' eq_refl E) as (w & t & Ew & Hw & Ht).
           exists (c :: w), t. rewrite Ew.
           repeat split; [now apply word_cons | exact Ht].
    + intros Hh. specialize (Hh c r eq_refl). subst c.
      destruct r as [|c' r']; [now destruct (Hl [])|].
      assert (E : c' <> hyphen) by (simpl in Hs; now apply Hs).
      destruct (IHA c' r' eq_refl E) as (w & t & Ew & Hw & Ht).
      rewrite Ew. change (hyphen :: w ++ t) with ((hyphen :: w) ++ t).
      constructor; [|exact Ht].
      change (hyphen :: w) with ([hyphen] ++ w).
      constructor; [|exact Hw]. constructor. apply Ascii.eqb_refl.
Qed.

Lemma song_id_shape (filename : str) :
  song_id_of filename = [] \/
  exists w t, song_id_of filename = w ++ t
              /\ Re.matches word w /\ Re.matches more_words t.
Proof.
  unfold song_id_of, strip_chars, strip_by.
  set (s := sub_hyphen_runs (sub_non_alnum (lower (strip_extension filename)))).
  fold is_hyphen.
  assert (Hch : slug_chars s) by apply slug_chars_runs, slug_chars_sub.
  assert (Hs : single_hyphens s) by apply runs_shape.
  destruct (lstrip_suffix is_hyphen s) as [a Ea].
  destruct (rstrip_prefix is_hyphen (lstrip_by is_hyphen s)) as [b Eb].
  set (u := rstrip_by is_hyphen (lstrip_by is_hyphen s)) in *.
  assert (Hu : slug_chars u /\ single_hyphens u).
  { rewrite Ea, Eb in Hch, Hs. unfold slug_chars in *.
    apply Forall_app in Hch as [_ Hch]. apply Forall_app in Hch as [Hch _].
    apply single_hyphens_app in Hs as [_ Hs].
    apply single_hyphens_app in Hs as [Hs _]. auto. }
  destruct Hu as [Hu1 Hu2].
  assert (Hl : forall q, u <> q ++ [hyphen]).
  { intros q. apply rstrip_last. now apply is_hyphen_true. }
  destruct u as [|c r] eqn:E; [now left|right].
  apply (proj1 (slug_shape (c :: r) Hu1 Hu2 Hl) c r eq_refl).
  apply is_hyphen_false.
  destruct (lstrip_by is_hyphen s) as [|c0 r0] eqn:El; [discriminate|].
  assert (c0 = c).
  { destruct b as [|x b]; simpl in Eb; now injection Eb. }
  subst c0. now apply lstrip_head in El.
Qed.

Lemma song_id_nonempty (filename : str) :
  existsb is_lower_alnum (lower (strip_extension filename)) = true ->
  song_id_of filename <> [].
Proof.
  intros H. apply existsb_exists in H as (c & Hin & Hc).
  assert (Hh : is_hyphen c = false).
  { apply is_hyphen_false. now apply alnum_not_hyphen. }
  assert (K : In c (song_id_of filename)).
  { unfold song_id_of, strip_chars, strip_by. fold is_hyphen.
    apply rstrip_keeps, lstrip_keeps; try exact Hh.
    apply runs_keeps; [now apply alnum_not_hyphen|].
    unfold sub_non_alnum. apply in_map_iff. exists c. now rewrite Hc. }
  intros E. now rewrite E in K.
Qed.

Lemma runs_all_hyphens (s : str) :
  forallb is_hyphen s = true -> forallb is_hyphen (sub_hyphen_runs s) = true.
Proof.
  induction s as [|c s IH]; [reflexivity|].
  intros H. simpl in H. apply andb_true_iff in H as [Hc H].
  specialize (IH H). simpl.
  destruct (Ascii.eqb c hyphen); [|simpl; now rewrite Hc].
  destruct s as [|c' s']; [simpl; now rewrite Hc|].
  destruct (Ascii.eqb c' hyphen); [exact IH|].
  change (forallb is_hyphen (c :: sub_hyphen_runs (c' :: s')))
    with (is_hyphen c && forallb is_hyphen (sub_hyphen_runs (c' :: s'))).
  now rewrite Hc.
Qed.

Lemma song_id_empty (filename : str) :
  existsb is_lower_alnum (lower (strip_extension filename)) = false ->
  song_id_of filename = [].
Proof.
  intros H. unfold song_id_of, strip_chars. fold is_hyphen.
  apply strip_all, runs_all_hyphens.
  unfold sub_non_alnum. rewrite forallb_forall. intros x Hx.
  apply in_map_iff in Hx as (c & <- & Hc).
  destruct (is_lower_alnum c) eqn:E; [|reflexivity].
  assert (existsb is_lower_alnum (lower (strip_extension filename)) = true)
    by (apply existsb_exists; eauto).
  congruence.
Qed.

(** ** The classifier *)

Lemma split1_two (sep s : str) :
  contains sep s = true ->
  exists a b, split1 sep s = [a; b] /\ s = a ++ sep ++ b.
Proof.
  intros H. destruct (contains_cut sep s H) as (a & b & E).
  exists a, b. unfold split1. rewrite E. split; [reflexivity|].
  now apply cut_inv.
Qed.

(** The default split returns: where it indexes [parts], [parts] has two
    elements. *)
Lemma split_title_artist_cases (name : str) :
  (contains " -" name = false /\
   split_title_artist name = Ok (name, lit "Unknown"))
  \/ exists sep a b,
       (sep = lit " - " \/ sep = lit " -") /\ name = a ++ sep ++ b /\
       split_title_artist name = Ok (strip b, strip a).
Proof.
  unfold split_title_artist.
  destruct (contains " - " name) eqn:E1.
  - right. destruct (split1_two _ _ E1) as (a & b & -> & Hn).
    exists (lit " - "), a, b. auto.
  - destruct (contains " -" name) eqn:E2.
    + right. destruct (split1_two _ _ E2) as (a & b & -> & Hn).
      exists (lit " -"), a, b. auto.
    + left. auto.
Qed.

Lemma split_title_artist_total (name : str) :
  exists title artist, split_title_artist name = Ok (title, artist).
Proof.
  destruct (split_title_artist_cases name)
    as [[_ E]|(sep & a & b & _ & _ & E)]; eauto.
Qed.

Lemma extract_unfold (filename title artist : str) :
  split_title_artist (strip_extension filename) = Ok (title, artist) ->
  extract_song_info_from_filename filename
  = Ok (Info.Build
          (fst (special_cases (lower (strip_extension filename))
                              (title, artist)))
          (snd (special_cases (lower (strip_extension filename))
                              (title, artist)))
          [lit "easy"] 5).
Proof.
  intros E. unfold extract_song_info_from_filename. rewrite E.
  cbn [bind]. now destruct (special_cases _ _).
Qed.

Ltac split_orb_false :=
  repeat match goal with
         | H : (_ || _)%bool = false |- _ =>
             apply orb_false_iff in H as [? ?]
         end.

Ltac rewrite_false :=
  repeat match goal with
         | H : _ = false |- _ => rewrite H; clear H
         end.

(** When no earlier rule applies, the chain comes down to the beach town
    rule. *)
Lemma special_cases_beach_town (l title artist : str) :
  before_beach_town l = false ->
  special_cases l (title, artist)
  = if contains "beach" l && contains "town" l
    then (if contains "violin" l then lit "Beach Town Violin"
          else if contains "flute" l then lit "Beach Town Flute"
          else title,
          lit "Traditional")
    else (title, artist).
Proof.
  intros H. unfold before_beach_town in H. split_orb_false.
  unfold special_cases. rewrite_false. reflexivity.
Qed.

Lemma special_cases_none (l title artist : str) :
  some_rule l = false -> special_cases l (title, artist) = (title, artist).
Proof.
  unfold some_rule. intros H. apply orb_false_iff in H as [H1 H2].
  now rewrite special_cases_beach_town, H2.
Qed.



Lemma extract_total (filename : str) :
  exists info, extract_song_info_from_filename filename = Ok info.
Proof.
  destruct (split_title_artist_total (strip_extension filename))
    as (title & artist & E).
  rewrite (extract_unfold _ _ _ E). eauto.
Qed.

(** ** Worked filenames *)

(** C1 (the code differs): for ["random_song.midi"] the first [replace]
    deletes [".mid"] and leaves the final [i], so the classifier returns the
    title ["random_songi"] (artist ["Unknown"]) and the builder derives the
    id ["random-songi-midi"], where the extension was meant to be removed
    whole. *)
Theorem random_song_midi_keeps_i :
  extract_song_info_from_filename "random_song.midi"
  = Ok (Info.Build (lit "random_songi") (lit "Unknown") [lit "easy"] 5)
  /\ song_id_of "random_song.midi" ++ lit "-midi" = lit "random-songi-midi"
  /\ strip_extension "random_song.midi" <> lit "random_song".
Proof.
  split; [vm_compute; reflexivity|].
  split; [vm_compute; reflexivity|].
  vm_compute. discriminate.
Qed.

(** C3: ["Metallica - Master of Puppets.mid"] is classified as title
    ["Master of Puppets"], artist ["Metallica"], and the song built for it
    has the id ["metallica-master-of-puppets-midi"]. *)
Theorem metallica_master_of_puppets :
  extract_song_info_from_filename "Metallica - Master of Puppets.mid"
  = Ok (Info.Build (lit "Master of Puppets") (lit "Metallica")
                   [lit "easy"] 5)
  /\ song_of_file "Metallica - Master of Puppets.mid"
     = Ok (Song.Build
             (lit "metallica-master-of-puppets-midi")
             (lit "Master of Puppets")
             (lit "Metallica")
             (lit "0:30") [lit "easy"] 120 (lit "midi") 5
             soundfont_url
             [(lit "easy",
               lit "https://porter-smith.github.io/rhythm-master-files/midi/Metallica - Master of Puppets.mid")]
             [(lit "easy",
               lit "/audio/metallica-master-of-puppets-easy.mp3")]
             [(lit "easy", [])]).
Proof. split; vm_compute; reflexivity. Qed.

(** ** The keyword chain *)

(** C4: a filename whose lowercase form contains both ["twinkle"] and
    ["beethoven"] is classified by the twinkle rule, the first of the
    chain: title ["Twinkle Twinkle Little Star"], artist ["Traditional"];
    the beethoven rule leaves no trace. *)
Theorem twinkle_before_beethoven (filename : str) :
  contains "twinkle" (lower filename) = true ->
  contains "beethoven" (lower filename) = true ->
  exists info,
    extract_song_info_from_filename filename = Ok info
    /\ Info.title info = lit "Twinkle Twinkle Little Star"
    /\ Info.artist info = lit "Traditional"
    /\ Info.title info <> lit "Moonlight Sonata"
    /\ Info.artist info <> lit "Beethoven".
Proof.
  intros Ht _.
  apply keyword_survives in Ht; [|reflexivity|reflexivity].
  destruct (split_title_artist_total (strip_extension filename))
    as (title & artist & E).
  rewrite (extract_unfold _ _ _ E). eexists. split; [reflexivity|].
  unfold special_cases. rewrite Ht. cbn [fst snd Info.title Info.artist].
  repeat split; discriminate.
Qed.

Lemma twinkle_before_beethoven_witness :
  exists info,
    extract_song_info_from_filename "Beethoven plays Twinkle.mid" = Ok info
    /\ Info.title info = lit "Twinkle Twinkle Little Star"
    /\ Info.artist info = lit "Traditional"
    /\ Info.title info <> lit "Moonlight Sonata"
    /\ Info.artist info <> lit "Beethoven".
Proof.
  apply (twinkle_before_beethoven "Beethoven plays Twinkle.mid");
    vm_compute; reflexivity.
Defined.

(** C7: the classifier returns a record for every filename, with the
    difficulties [["easy"]] and the overall difficulty 5, and the record is
    the only one it returns for that filename. *)
Theorem classifier_total_deterministic (filename : str) :
  exists info,
    extract_song_info_from_filename filename = Ok info
    /\ Info.difficulties info = [lit "easy"]
    /\ Info.overall_difficulty info = 5%Z
    /\ forall info',
         extract_song_info_from_filename filename = Ok info' -> info' = info.
Proof.
  destruct (split_title_artist_total (strip_extension filename))
    as (title & artist & E).
  rewrite (extract_unfold _ _ _ E). eexists.
  split; [reflexivity|]. repeat split. now intros info' [= <-].
Qed.

(** [cut] stops at the first occurrence: no shorter prefix is followed by
    the separator. *)
Lemma cut_shortest (sep s a b : str) :
  cut sep s = Some (a, b) ->
  forall a' b', s = a' ++ sep ++ b' -> List.length a <= List.length a'.
Proof.
  revert a; induction s as [|c s IH]; intros a H a' b' E.
  - simpl in H. destruct (startswith sep []); [|discriminate].
    injection H as <- _. apply Nat.le_0_l.
  - simpl in H. destruct (startswith sep (c :: s)) eqn:Es.
    + injection H as <- _. apply Nat.le_0_l.
    + destruct (cut sep s) as [[a0 b0]|] eqn:Ec; [|discriminate].
      injection H as Ha Hb. subst a b0.
      destruct a' as [|c' a''].
      * simpl in E. rewrite E, startswith_app in Es. discriminate.
      * injection E as _ E. simpl. apply le_n_S.
        exact (IH a0 eq_refl a'' b' E).
Qed.

(** The default title and artist, case by case: without [" -"] the name
    and ["Unknown"]; otherwise the stripped parts around the first
    [" - "], or around the first [" -"] when there is no [" - "]. *)
Lemma split_title_artist_first (name : str) :
  (contains " -" name = false /\
   split_title_artist name = Ok (name, lit "Unknown"))
  \/ exists sep a b,
       (sep = lit " - " \/ (sep = lit " -" /\ contains " - " name = false))
       /\ name = a ++ sep ++ b
       /\ (forall a' b',
             name = a' ++ sep ++ b' -> List.length a <= List.length a')
       /\ split_title_artist name = Ok (strip b, strip a).
Proof.
  unfold split_title_artist, split1.
  destruct (contains " - " name) eqn:E1.
  - right. destruct (contains_cut _ _ E1) as (a & b & Ec).
    exists (lit " - "), a, b. rewrite Ec.
    repeat split;
      [now left | now apply cut_inv
       | exact (cut_shortest (lit " - ") name a b Ec)].
  - destruct (contains " -" name) eqn:E2.
    + right. destruct (contains_cut _ _ E2) as (a & b & Ec).
      exists (lit " -"), a, b. rewrite Ec.
      repeat split;
        [now right | now apply cut_inv
         | exact (cut_shortest (lit " -") name a b Ec)].
    + left. auto.
Qed.

(** C9, as the code has it: when the lowercased name (the filename after
    extension stripping) contains ["beach"] and ["town"], neither
    ["violin"] nor ["flute"], and no earlier rule applies, the artist is
    ["Traditional"] and the title is left as the default split found it:
    the name itself when it has no [" -"]; otherwise the part after the
    first [" - "] (after the first [" -"] when the name has no [" - "]),
    stripped of surrounding whitespace. *)
Theorem beach_town_keeps_default_title (filename : str) :
  contains "beach" (lower (strip_extension filename)) = true ->
  contains "town" (lower (strip_extension filename)) = true ->
  contains "violin" (lower (strip_extension filename)) = false ->
  contains "flute" (lower (strip_extension filename)) = false ->
  before_beach_town (lower (strip_extension filename)) = false ->
  exists title,
    extract_song_info_from_filename filename
    = Ok (Info.Build title (lit "Traditional") [lit "easy"] 5)
    /\ ((contains " -" (strip_extension filename) = false
         /\ title = strip_extension filename)
        \/ exists sep a b,
             (sep = lit " - "
              \/ (sep = lit " -"
                  /\ contains " - " (strip_extension filename) = false))
             /\ strip_extension filename = a ++ sep ++ b
             /\ (forall a' b',
                   strip_extension filename = a' ++ sep ++ b' ->
                   List.length a <= List.length a')
             /\ title = strip b).
Proof.
  intros Hb Ht Hv Hf Hearlier.
  assert (Hchain : forall title artist,
             split_title_artist (strip_extension filename)
             = Ok (title, artist) ->
             extract_song_info_from_filename filename
             = Ok (Info.Build title (lit "Traditional") [lit "easy"] 5)).
  { intros title artist E. rewrite (extract_unfold _ _ _ E).
    rewrite special_cases_beach_town by exact Hearlier.
    now rewrite Hb, Ht, Hv, Hf. }
  destruct (split_title_artist_first (strip_extension filename))
    as [[Hsep E]|(sep & a & b & Hs & Hn & Hmin & E)].
  - exists (strip_extension filename). split; [now apply (Hchain _ _ E)|].
    left. auto.
  - exists (strip b). split; [now apply (Hchain _ _ E)|].
    right. exists sep, a, b. auto.
Qed.

Lemma beach_town_keeps_default_title_witness :
  exists title,
    extract_song_info_from_filename "Artist - Beach Town.mid"
    = Ok (Info.Build title (lit "Traditional") [lit "easy"] 5)
    /\ title = lit "Beach Town"
    /\ ((contains " -" (strip_extension "Artist - Beach Town.mid") = false
         /\ title = strip_extension "Artist - Beach Town.mid")
        \/ exists sep a b,
             (sep = lit " - "
              \/ (sep = lit " -"
                  /\ contains " - " (strip_extension "Artist - Beach Town.mid")
                     = false))
             /\ strip_extension "Artist - Beach Town.mid" = a ++ sep ++ b
             /\ (forall a' b',
                   strip_extension "Artist - Beach Town.mid"
                   = a' ++ sep ++ b' ->
                   List.length a <= List.length a')
             /\ title = strip b).
Proof.
  destruct (beach_town_keeps_default_title "Artist - Beach Town.mid")
    as (title & E & Hcase); try (vm_compute; reflexivity).
  exists title. split; [exact E|]. split; [|exact Hcase].
  pose proof E as E'. vm_compute in E'. injection E' as E'.
  rewrite <- E'. vm_compute. reflexivity.
Defined.

(** A keyword can be spliced together by the extension stripping: this
    filename has no ["violin"] in its lowercase form, its name has. *)
Example violin_spliced :
  contains "violin" (lower "beach town vio.midlin.mid") = false
  /\ extract_song_info_from_filename "beach town vio.midlin.mid"
     = Ok (Info.Build (lit "Beach Town Violin") (lit "Traditional")
                      [lit "easy"] 5).
Proof. split; vm_compute; reflexivity. Qed.

(** C9 as stated fails: ["Artist - Beach Town.mid"] meets every
    condition, on the filename and on the name, and its title is
    ["Beach Town"]: neither the filename nor the filename without its
    extension. *)
Lemma beach_town_title_is_not_filename :
  ~ (forall filename : str,
       contains "beach" (lower filename) = true ->
       contains "town" (lower filename) = true ->
       contains "violin" (lower filename) = false ->
       contains "flute" (lower filename) = false ->
       before_beach_town (lower filename) = false ->
       contains "violin" (lower (strip_extension filename)) = false ->
       contains "flute" (lower (strip_extension filename)) = false ->
       before_beach_town (lower (strip_extension filename)) = false ->
       exists info,
         extract_song_info_from_filename filename = Ok info
         /\ Info.artist info = lit "Traditional"
         /\ (Info.title info = filename
             \/ Info.title info = strip_extension filename
             \/ Info.title info ++ lit ".mid" = filename)).
Proof.
  intros H.
  destruct (H (lit "Artist - Beach Town.mid"))
    as (info & E & _ & Ht); try (vm_compute; reflexivity).
  vm_compute in E. injection E as <-.
  vm_compute in Ht. destruct Ht as [Ht|[Ht|Ht]]; discriminate.
Qed.

(** ** Song ids *)

Lemma song_of_file_total (filename : str) :
  exists info,
    extract_song_info_from_filename filename = Ok info /\
    song_of_file filename
    = Ok (add_soundfont filename
            (new_song filename (song_id_of filename) info)).
Proof.
  destruct (extract_total filename) as [info E].
  exists info. split; [exact E|]. unfold song_of_file. now rewrite E.
Qed.

Lemma add_soundfont_id (filename : str) (song : Song.t) :
  Song.id (add_soundfont filename song) = Song.id song.
Proof. unfold add_soundfont. now destruct (existsb _ _). Qed.

Lemma song_of_file_id (filename : str) (song : Song.t) :
  song_of_file filename = Ok song ->
  Song.id song = song_id_of filename ++ lit "-midi".
Proof.
  destruct (song_of_file_total filename) as (info & _ & E).
  rewrite E. intros [= <-]. now rewrite add_soundfont_id.
Qed.

(** C2, as the code has it: when the lowercased name (the filename after
    extension stripping) has at least one character of [a-z0-9], the id of
    the song built for the file matches
    [^[a-z0-9]+(-[a-z0-9]+)*-midi$]. *)
Theorem id_matches_pattern (filename : str) (song : Song.t) :
  existsb is_lower_alnum (lower (strip_extension filename)) = true ->
  song_of_file filename = Ok song ->
  Re.matches id_pattern (Song.id song)
  /\ Re.matchb id_pattern (Song.id song) = true.
Proof.
  intros Hex Hsong.
  assert (M : Re.matches id_pattern (Song.id song)).
  { rewrite (song_of_file_id _ _ Hsong).
    destruct (song_id_shape filename) as [E|(w & t & -> & Hw & Ht)].
    - now apply song_id_nonempty in Hex.
    - rewrite <- !app_assoc. unfold id_pattern.
      constructor; [exact Hw|]. constructor; [exact Ht|].
      apply literal_matches. }
  split; [exact M | now apply matchb_spec].
Qed.

Lemma id_matches_pattern_witness :
  exists song,
    song_of_file "My Song (v2).mid" = Ok song
    /\ Song.id song = lit "my-song-v2-midi"
    /\ Re.matches id_pattern (Song.id song)
    /\ Re.matchb id_pattern (Song.id song) = true.
Proof.
  destruct (song_of_file_total "My Song (v2).mid") as (info & _ & E).
  eexists. split; [exact E|]. split.
  - rewrite add_soundfont_id. vm_compute. reflexivity.
  - apply (id_matches_pattern "My Song (v2).mid" _);
      [vm_compute; reflexivity | exact E].
Defined.

(** With no character of [a-z0-9] in the lowercased name the id is the
    bare suffix. *)
Lemma id_without_alnum (filename : str) (song : Song.t) :
  existsb is_lower_alnum (lower (strip_extension filename)) = false ->
  song_of_file filename = Ok song ->
  Song.id song = lit "-midi".
Proof.
  intros Hex Hsong.
  now rewrite (song_of_file_id _ _ Hsong), (song_id_empty _ Hex).
Qed.

(** C2 as stated fails: the file ["___.mid"] gets the id ["-midi"], which
    the pattern rejects. *)
Lemma underscores_id_rejected :
  ~ (forall filename : str,
       endswith ".mid" filename = true \/ endswith ".midi" filename = true ->
       forall song,
         song_of_file filename = Ok song ->
         Re.matches id_pattern (Song.id song)).
Proof.
  intros H.
  destruct (song_of_file_total "___.mid") as (info & _ & E).
  assert (Hend : endswith ".mid" "___.mid" = true)
    by (vm_compute; reflexivity).
  assert (Hex : existsb is_lower_alnum (lower (strip_extension "___.mid"))
                = false) by (vm_compute; reflexivity).
  specialize (H (lit "___.mid") (or_introl Hend) _ E).
  rewrite (id_without_alnum "___.mid" _ Hex E) in H.
  apply matchb_spec in H. vm_compute in H. discriminate.
Qed.

(** ** Extension stripping *)

Lemma replace_absent (old new s : str) :
  contains old s = false -> replace old new s = s.
Proof.
  unfold replace. destruct old as [|d o']; [now destruct s|].
  induction s as [|c s IH]; intros H; [reflexivity|].
  simpl in H. apply orb_false_iff in H as [H1 H2].
  rewrite replace_from_other by exact H1. now rewrite IH.
Qed.








(** ** The catalog *)

Lemma add_soundfont_noop (filename song_id : str) (song_info : Info.t) :
  add_soundfont filename (new_song filename song_id song_info)
  = new_song filename song_id song_info.
Proof. unfold add_soundfont. now destruct (existsb _ _). Qed.

Lemma song_of_file_soundFont (filename : str) (song : Song.t) :
  song_of_file filename = Ok song -> Song.soundFont song = soundfont_url.
Proof.
  destruct (song_of_file_total filename) as (info & _ & E).
  rewrite E, add_soundfont_noop. now intros [= <-].
Qed.

(** The loop never raises, and adds one song per file, in order. *)
Lemma for_midi_files_spec (midi_files : list str) (songs : list Song.t) :
  exists added,
    for_midi_files midi_files songs = Ok (songs ++ added)
    /\ Forall2 (fun filename song => song_of_file filename = Ok song)
               midi_files added.
Proof.
  revert songs; induction midi_files as [|filename rest IH]; intros songs.
  - exists []. now rewrite app_nil_r.
  - destruct (song_of_file_total filename) as (info & _ & E).
    destruct (IH (songs ++ [add_soundfont filename
                              (new_song filename (song_id_of filename) info)]))
      as (added & Eloop & Hall).
    eexists (_ :: added). simpl. rewrite E. cbn [bind].
    rewrite Eloop, <- app_assoc. split; [reflexivity|]. now constructor.
Qed.

Lemma generate_with_directory (w : World) (entries : list str) :
  midi_dir w = Some entries ->
  exists songs,
    generate_midi_songs_json w = ([], Ok (Some songs))
    /\ Forall2 (fun filename song => song_of_file filename = Ok song)
               (glob ".mid" entries ++ glob ".midi" entries) songs.
Proof.
  intros E. unfold generate_midi_songs_json. rewrite E.
  destruct (for_midi_files_spec
              (glob ".mid" entries ++ glob ".midi" entries) [])
    as (songs & Eloop & Hall).
  exists songs. rewrite Eloop. auto.
Qed.

Lemma written_main (w : World) : written (main w) = written (main_try w).
Proof. unfold main. now destruct (status (main_try w)). Qed.

(** What was written is the list the builder returned, twice. *)
Lemma written_inv (w : World) (c : Catalog) :
  written (main w) = Some c ->
  exists entries songs,
    midi_dir w = Some entries
    /\ Forall2 (fun filename song => song_of_file filename = Ok song)
               (glob ".mid" entries ++ glob ".midi" entries) songs
    /\ c = {| midiSongs := songs; allSongs := songs |}.
Proof.
  rewrite written_main. unfold main_try.
  destruct (midi_dir w) as [entries|] eqn:Ed.
  - destruct (generate_with_directory w entries Ed) as (songs & -> & Hall).
    destruct songs as [|song songs]; [discriminate|]. cbn [falsy].
    destruct (open_error w); [discriminate|].
    destruct (listing (song :: songs)) as [listed missing].
    intros [= <-]. exists entries, (song :: songs). auto.
  - unfold generate_midi_songs_json. rewrite Ed. discriminate.
Qed.

(** C5: whenever the program writes a catalog, its [midiSongs] and
    [allSongs] are the same list. *)
Theorem midiSongs_equal_allSongs (w : World) (c : Catalog) :
  written (main w) = Some c -> midiSongs c = allSongs c.
Proof.
  intros H. destruct (written_inv w c H) as (entries & songs & _ & _ & ->).
  reflexivity.
Qed.

Lemma midiSongs_equal_allSongs_witness :
  exists c,
    written (main {| midi_dir := Some [lit "a.mid"; lit "b.midi"];
                     open_error := None |}) = Some c
    /\ midiSongs c = allSongs c /\ List.length (midiSongs c) = 2.
Proof.
  eexists. split; [vm_compute; reflexivity|].
  split; [|reflexivity].
  apply (midiSongs_equal_allSongs
           {| midi_dir := Some [lit "a.mid"; lit "b.midi"];
              open_error := None |}).
  vm_compute. reflexivity.
Defined.

(** C6: with the directory [midi] absent, or with no [.mid]/[.midi] name
    in it, the program prints its status lines (the last is
    ["No MIDI songs found!"]), writes nothing and returns normally. *)
Theorem no_songs_no_file (w : World) :
  midi_dir w = None
  \/ (exists entries,
        midi_dir w = Some entries
        /\ glob ".mid" entries ++ glob ".midi" entries = []) ->
  written (main w) = None
  /\ status (main w) = Ok tt
  /\ stdout (main w)
     = lit "Analyzing MIDI files..."
       :: match midi_dir w with
          | None => [lit "MIDI directory midi not found!"]
          | Some _ => []
          end
       ++ [lit "No MIDI songs found!"].
Proof.
  intros [E|(entries & E & Hnone)];
    unfold main, main_try, generate_midi_songs_json; rewrite E.
  - repeat split.
  - rewrite Hnone. repeat split.
Qed.

Lemma no_songs_no_file_witness :
  (written (main {| midi_dir := None; open_error := None |}) = None
   /\ status (main {| midi_dir := None; open_error := None |}) = Ok tt
   /\ stdout (main {| midi_dir := None; open_error := None |})
      = [lit "Analyzing MIDI files...";
         lit "MIDI directory midi not found!";
         lit "No MIDI songs found!"])
  /\ (written (main {| midi_dir := Some [lit "readme.txt"];
                       open_error := None |}) = None
      /\ status (main {| midi_dir := Some [lit "readme.txt"];
                         open_error := None |}) = Ok tt
      /\ stdout (main {| midi_dir := Some [lit "readme.txt"];
                         open_error := None |})
         = [lit "Analyzing MIDI files..."; lit "No MIDI songs found!"]).
Proof.
  split.
  - apply (no_songs_no_file {| midi_dir := None; open_error := None |}).
    left. reflexivity.
  - apply (no_songs_no_file {| midi_dir := Some [lit "readme.txt"];
                               open_error := None |}).
    right. exists [lit "readme.txt"]. split; vm_compute; reflexivity.
Defined.

(** C8: every song of a written catalog has the one soundfont URL, and
    the soundfont branch of the builder changes nothing in the song it is
    applied to. *)
Theorem soundFont_is_fixed (w : World) (c : Catalog) :
  written (main w) = Some c ->
  Forall (fun song => Song.soundFont song = soundfont_url) (midiSongs c)
  /\ Forall (fun song => Song.soundFont song = soundfont_url) (allSongs c)
  /\ forall filename song_id song_info,
       add_soundfont filename (new_song filename song_id song_info)
       = new_song filename song_id song_info.
Proof.
  intros H.
  destruct (written_inv w c H) as (entries & songs & _ & Hall & ->).
  assert (K : Forall (fun song => Song.soundFont song = soundfont_url) songs).
  { clear H. induction Hall as [|filename song files songs' Hsong _ IH];
      [constructor|].
    constructor; [|exact IH].
    now apply (song_of_file_soundFont filename). }
  repeat split; try exact K. apply add_soundfont_noop.
Qed.

Lemma soundFont_is_fixed_witness :
  exists c,
    written (main {| midi_dir := Some [lit "dooms-gate.mid"; lit "plain.mid"];
                     open_error := None |}) = Some c
    /\ Forall (fun song => Song.soundFont song = soundfont_url) (midiSongs c).
Proof.
  eexists. split; [vm_compute; reflexivity|].
  apply (soundFont_is_fixed
           {| midi_dir := Some [lit "dooms-gate.mid"; lit "plain.mid"];
              open_error := None |}).
  vm_compute. reflexivity.
Defined.

(** * Further properties of the program *)

(** ** Which files are read *)

Lemma endswith_spec (p s : str) :
  endswith p s = true <-> exists q, s = q ++ p.
Proof.
  unfold endswith. split.
  - intros H. apply andb_true_iff in H as [Hlen Hp].
    apply Nat.leb_le in Hlen.
    destruct (startswith_inv _ _ Hp) as [r Hr].
    assert (Hl : List.length (skipn (List.length s - List.length p) s)
                 = List.length p) by (rewrite length_skipn; lia).
    rewrite Hr, length_app in Hl.
    assert (r = []) by (destruct r; [reflexivity | simpl in Hl; lia]).
    subst r. rewrite app_nil_r in Hr.
    exists (firstn (List.length s - List.length p) s).
    rewrite <- Hr at 2. symmetry. apply firstn_skipn.
  - intros [q ->]. rewrite length_app. apply andb_true_iff. split.
    + apply Nat.leb_le. lia.
    + replace (List.length q + List.length p - List.length p)
        with (List.length q) by lia.
      rewrite skipn_app, skipn_all, Nat.sub_diag. simpl.
      rewrite <- (app_nil_r p) at 2. apply startswith_app.
Qed.

Lemma mid_is_not_midi (s : str) :
  endswith ".mid" s = true -> endswith ".midi" s = false.
Proof.
  intros H. apply endswith_spec in H as [q ->].
  destruct (endswith ".midi" (q ++ lit ".mid")) eqn:E; [|reflexivity].
  apply endswith_spec in E as [q' E].
  change (q ++ lit ".mid") with (q ++ lit ".mi" ++ ["d"%char]) in E.
  change (q' ++ lit ".midi") with (q' ++ lit ".mid" ++ ["i"%char]) in E.
  rewrite !app_assoc in E. apply app_inj_tail in E as [_ E]. discriminate.
Qed.

(** X1: a name is never taken by both patterns: when the names of the
    directory are distinct, so are the files the builder reads. *)
Theorem no_file_read_twice (entries : list str) :
  NoDup entries -> NoDup (glob ".mid" entries ++ glob ".midi" entries).
Proof.
  intros H. apply NoDup_app; try now apply NoDup_filter.
  intros f H1 H2. unfold glob in H1, H2.
  apply filter_In in H1 as [_ H1]. apply filter_In in H2 as [_ H2].
  apply mid_is_not_midi in H1. congruence.
Qed.

Lemma no_file_read_twice_witness :
  NoDup (glob ".mid" [lit "b.midi"; lit "a.mid"; lit "c.txt"]
         ++ glob ".midi" [lit "b.midi"; lit "a.mid"; lit "c.txt"]).
Proof.
  apply (no_file_read_twice [lit "b.midi"; lit "a.mid"; lit "c.txt"]).
  repeat constructor; simpl; intuition discriminate.
Defined.

(** ** Runs that reach the output file *)

Lemma generate_some_songs (w : World) (entries : list str) :
  midi_dir w = Some entries ->
  glob ".mid" entries ++ glob ".midi" entries <> [] ->
  exists song songs,
    generate_midi_songs_json w = ([], Ok (Some (song :: songs)))
    /\ Forall2 (fun filename s => song_of_file filename = Ok s)
               (glob ".mid" entries ++ glob ".midi" entries) (song :: songs).
Proof.
  intros Ed Hne.
  destruct (generate_with_directory w entries Ed) as (songs & E & Hall).
  destruct songs as [|song songs]; [|eauto].
  apply Forall2_length, length_zero_iff_nil in Hall. contradiction.
Qed.

(** X3: when the output file cannot be opened, the songs are built but
    nothing is written; the program prints the error and returns. *)
Theorem unwritable_output_is_reported
  (w : World) (entries : list str) (msg : str) :
  midi_dir w = Some entries ->
  glob ".mid" entries ++ glob ".midi" entries <> [] ->
  open_error w = Some msg ->
  main w
  = {| stdout := [lit "Analyzing MIDI files..."; lit "Error: " ++ msg];
       written := None;
       status := Ok tt |}.
Proof.
  intros Ed Hne Hopen.
  destruct (generate_some_songs w entries Ed Hne)
    as (song & songs & E & _).
  unfold main, main_try. rewrite E. cbn [falsy]. now rewrite Hopen.
Qed.

Lemma unwritable_output_is_reported_witness :
  main {| midi_dir := Some [lit "a.mid"];
          open_error := Some (lit "[Errno 13] Permission denied") |}
  = {| stdout := [lit "Analyzing MIDI files...";
                  lit "Error: " ++ lit "[Errno 13] Permission denied"];
       written := None;
       status := Ok tt |}.
Proof.
  apply (unwritable_output_is_reported
           {| midi_dir := Some [lit "a.mid"];
              open_error := Some (lit "[Errno 13] Permission denied") |}
           [lit "a.mid"]);
    [reflexivity | vm_compute; discriminate | reflexivity].
Defined.

Lemma song_of_file_midiFiles (filename : str) (song : Song.t) :
  song_of_file filename = Ok song ->
  Song.midiFiles song
  = [(lit "easy",
      lit "https://porter-smith.github.io/rhythm-master-files/midi/"
      ++ filename)].
Proof.
  destruct (song_of_file_total filename) as (info & _ & E).
  rewrite E, add_soundfont_noop. now intros [= <-].
Qed.

Lemma built_songs_fields (files : list str) (songs : list Song.t) :
  Forall2 (fun filename song => song_of_file filename = Ok song) files songs ->
  map (fun song => dict_get "easy" (Song.midiFiles song)) songs
  = map (fun filename =>
           Some (lit "https://porter-smith.github.io/rhythm-master-files/midi/"
                 ++ filename))
        files
  /\ map Song.id songs
     = map (fun filename => song_id_of filename ++ lit "-midi") files.
Proof.
  induction 1 as [|filename song files songs Hsong _ [IH1 IH2]];
    [split; reflexivity|].
  cbn [map]. rewrite IH1, IH2.
  rewrite (song_of_file_midiFiles _ _ Hsong), (song_of_file_id _ _ Hsong).
  split; reflexivity.
Qed.

(** X4: the songs of a written catalog follow the files read, the
    [.mid] names first and the [.midi] names after them, each in directory
    order: the MIDI link of a song is the fixed address followed by the
    filename as it is, and its id is the slug of the filename with
    ["-midi"]. *)
Theorem catalog_follows_files (w : World) (c : Catalog) :
  written (main w) = Some c ->
  exists entries,
    midi_dir w = Some entries
    /\ map (fun song => dict_get "easy" (Song.midiFiles song)) (midiSongs c)
       = map (fun filename =>
                Some (lit "https://porter-smith.github.io/rhythm-master-files/midi/"
                      ++ filename))
             (glob ".mid" entries ++ glob ".midi" entries)
    /\ map Song.id (midiSongs c)
       = map (fun filename => song_id_of filename ++ lit "-midi")
             (glob ".mid" entries ++ glob ".midi" entries).
Proof.
  intros H. destruct (written_inv w c H) as (entries & songs & Ed & Hall & ->).
  exists entries. split; [exact Ed|]. cbn [midiSongs].
  now apply built_songs_fields.
Qed.

Lemma catalog_follows_files_witness :
  exists c,
    written (main {| midi_dir := Some [lit "b.midi"; lit "a.mid"];
                     open_error := None |}) = Some c
    /\ map Song.id (midiSongs c) = [lit "a-midi"; lit "bi-midi"].
Proof.
  eexists. split; [vm_compute; reflexivity|].
  match goal with
  | |- map Song.id (midiSongs ?c) = _ =>
      destruct (catalog_follows_files
                  {| midi_dir := Some [lit "b.midi"; lit "a.mid"];
                     open_error := None |} c)
        as (entries & Ed & _ & Hid); [vm_compute; reflexivity|]
  end.
  cbn [midi_dir] in Ed. injection Ed as <-.
  etransitivity; [exact Hid|]. vm_compute. reflexivity.
Defined.

(** ** Slugs *)

Lemma song_id_invariants (filename : str) :
  slug_chars (song_id_of filename)
  /\ single_hyphens (song_id_of filename)
  /\ (forall r, song_id_of filename <> hyphen :: r)
  /\ (forall q, song_id_of filename <> q ++ [hyphen]).
Proof.
  unfold song_id_of, strip_chars, strip_by. fold is_hyphen.
  set (s := sub_hyphen_runs (sub_non_alnum (lower (strip_extension filename)))).
  assert (Hch : slug_chars s) by apply slug_chars_runs, slug_chars_sub.
  assert (Hs : single_hyphens s) by apply runs_shape.
  destruct (lstrip_suffix is_hyphen s) as [a Ea].
  destruct (rstrip_prefix is_hyphen (lstrip_by is_hyphen s)) as [b Eb].
  rewrite Ea, Eb in Hch, Hs. unfold slug_chars in *.
  apply Forall_app in Hch as [_ Hch]. apply Forall_app in Hch as [Hch _].
  apply single_hyphens_app in Hs as [_ Hs].
  apply single_hyphens_app in Hs as [Hs _].
  repeat split; try assumption.
  - intros r E.
    destruct (lstrip_by is_hyphen s) as [|c0 r0] eqn:El;
      [discriminate|].
    rewrite E in Eb. injection Eb as -> _.
    apply lstrip_head in El. now rewrite (proj2 (is_hyphen_true _)) in El.
  - intros q. apply rstrip_last. now apply is_hyphen_true.
Qed.

(** X5: whatever the filename, its slug is made of [a-z0-9] and hyphens
    only, has no two hyphens in a row, and neither begins nor ends with a
    hyphen. *)
Theorem slug_is_clean (filename : str) :
  Forall (fun c => is_lower_alnum c = true \/ c = hyphen)
         (song_id_of filename)
  /\ contains "--" (song_id_of filename) = false
  /\ startswith "-" (song_id_of filename) = false
  /\ (song_id_of filename = []
      \/ endswith "-" (song_id_of filename) = false).
Proof.
  destruct (song_id_invariants filename) as (Hch & Hs & Hfirst & Hlast).
  split; [exact Hch|]. split; [|split].
  - destruct (contains "--" (song_id_of filename)) eqn:E; [|reflexivity].
    apply contains_inv in E as (a & b & E). rewrite E in Hs.
    apply single_hyphens_app in Hs as [_ Hs]. simpl in Hs.
    now destruct Hs as [Hs _]; destruct (Hs eq_refl).
  - destruct (startswith "-" (song_id_of filename)) eqn:E; [|reflexivity].
    apply startswith_inv in E as [r E]. now destruct (Hfirst r).
  - destruct (endswith "-" (song_id_of filename)) eqn:E; [|now right].
    apply endswith_spec in E as [q E]. now destruct (Hlast q).
Qed.

Lemma alnum_lower (c : ascii) : is_lower_alnum c = true -> lower_char c = c.
Proof.
  destruct c as [[] [] [] [] [] [] [] []]; intros H;
    solve [reflexivity | discriminate H].
Qed.

Lemma slug_chars_fixed (u : str) :
  slug_chars u -> sub_non_alnum (lower u) = u.
Proof.
  unfold slug_chars, sub_non_alnum, lower. rewrite map_map.
  induction 1 as [|c u Hc _ IH]; [reflexivity|].
  cbn [map]. rewrite IH. f_equal.
  destruct Hc as [Hc | ->]; [|reflexivity].
  now rewrite (alnum_lower c Hc), Hc.
Qed.

Lemma runs_fixed (u : str) : single_hyphens u -> sub_hyphen_runs u = u.
Proof.
  induction u as [|c u IH]; [reflexivity|].
  intros H. cbn [sub_hyphen_runs].
  assert (Hu : single_hyphens u) by (simpl in H; destruct u; [exact I | apply H]).
  destruct (Ascii.eqb c hyphen) eqn:Ec; [|now rewrite IH].
  apply Ascii.eqb_eq in Ec. destruct u as [|c' u']; [reflexivity|].
  assert (Hc' : c' <> hyphen) by (simpl in H; now apply H).
  apply Ascii.eqb_neq in Hc'. now rewrite Hc', IH.
Qed.

Lemma strip_by_fixed (p : ascii -> bool) (u : str) :
  (forall c r, u = c :: r -> p c = false) ->
  (forall q c, u = q ++ [c] -> p c = false) ->
  strip_by p u = u.
Proof.
  intros Hfirst Hlast. unfold strip_by.
  assert (E : lstrip_by p u = u).
  { destruct u as [|c r]; [reflexivity|].
    simpl. now rewrite (Hfirst c r eq_refl). }
  rewrite E. destruct u as [|c r] using rev_ind; [reflexivity|].
  apply rstrip_fixed. now apply (Hlast r).
Qed.

Lemma contains_needs_head (d : ascii) (o s : str) :
  ~ In d s -> contains (d :: o) s = false.
Proof.
  induction s as [|c s IH]; intros H; [reflexivity|].
  simpl. rewrite IH by (intros K; apply H; now right).
  destruct (Ascii.eqb d c) eqn:E; [|reflexivity].
  apply Ascii.eqb_eq in E. destruct H. now left.
Qed.

(** The extension [.mid] after a name without a dot is removed, and
    nothing else. *)
Lemma strip_extension_mid (base : str) :
  ~ In "."%char base -> strip_extension (base ++ lit ".mid") = base.
Proof.
  intros H. unfold strip_extension.
  assert (E : replace ".mid" "" (base ++ lit ".mid") = base).
  { assert (Hno : ~ In "."%char (lit "mid"))
      by (vm_compute; intuition discriminate).
    pose proof (replace_splice "."%char (lit "mid") (lit "") Hno base [])
      as K.
    change ("."%char :: lit "mid") with (lit ".mid") in K.
    rewrite app_nil_r in K. rewrite K.
    rewrite replace_absent by now apply contains_needs_head.
    apply app_nil_r. }
  rewrite E. apply replace_absent. now apply contains_needs_head.
Qed.

Lemma slug_no_dot (u : str) : slug_chars u -> ~ In "."%char u.
Proof.
  unfold slug_chars. rewrite Forall_forall. intros H K.
  destruct (H _ K); discriminate.
Qed.

(** A clean slug names itself. *)
Lemma slug_is_fixed (u : str) :
  slug_chars u -> single_hyphens u ->
  (forall r, u <> hyphen :: r) -> (forall q, u <> q ++ [hyphen]) ->
  song_id_of (u ++ lit ".mid") = u.
Proof.
  intros Hch Hs Hfirst Hlast. unfold song_id_of, strip_chars.
  fold is_hyphen.
  rewrite strip_extension_mid by now apply slug_no_dot.
  rewrite slug_chars_fixed, runs_fixed by assumption.
  apply strip_by_fixed.
  - intros c r E. apply is_hyphen_false. intros ->. now apply (Hfirst r).
  - intros q c E. apply is_hyphen_false. intros ->. now apply (Hlast q).
Qed.

(** X6: slugging is idempotent: the file named by a slug, with the
    extension [.mid], has that slug again. *)
Theorem slug_of_slug (filename : str) :
  song_id_of (song_id_of filename ++ lit ".mid") = song_id_of filename.
Proof.
  destruct (song_id_invariants filename) as (Hch & Hs & Hfirst & Hlast).
  now apply slug_is_fixed.
Qed.

Lemma replace_cons (d : ascii) (o new : str) (c : ascii) (s : str) :
  c <> d -> replace (d :: o) new (c :: s) = c :: replace (d :: o) new s.
Proof.
  intros H. apply Ascii.eqb_neq in H. rewrite Ascii.eqb_sym in H.
  unfold replace. apply replace_from_other.
  cbn [startswith]. now rewrite H.
Qed.

Lemma strip_extension_cons (c : ascii) (filename : str) :
  c <> "."%char ->
  strip_extension (c :: filename) = c :: strip_extension filename.
Proof.
  intros Hc. unfold strip_extension.
  pose proof (replace_cons "." (lit "mid") (lit "") c filename Hc) as K1.
  change ("."%char :: lit "mid") with (lit ".mid") in K1. rewrite K1.
  pose proof (replace_cons "." (lit "midi") (lit "") c
                (replace ".mid" "" filename) Hc) as K2.
  change ("."%char :: lit "midi") with (lit ".midi") in K2. exact K2.
Qed.

Lemma lstrip_runs_hyphen (s : str) :
  lstrip_by is_hyphen (sub_hyphen_runs (hyphen :: s))
  = lstrip_by is_hyphen (sub_hyphen_runs s).
Proof.
  cbn [sub_hyphen_runs]. rewrite Ascii.eqb_refl.
  destruct s as [|c' s']; [reflexivity|].
  destruct (Ascii.eqb c' hyphen); reflexivity.
Qed.

Lemma slug_ignores_first_char (c : ascii) (filename : str) :
  c <> "."%char ->
  is_lower_alnum (lower_char c) = false ->
  song_id_of (c :: filename) = song_id_of filename.
Proof.
  intros Hdot Hal. unfold song_id_of, strip_chars, strip_by.
  fold is_hyphen. rewrite (strip_extension_cons c filename Hdot).
  cbn [lower sub_non_alnum map]. rewrite Hal.
  fold (lower (strip_extension filename)).
  fold (sub_non_alnum (lower (strip_extension filename))).
  now rewrite lstrip_runs_hyphen.
Qed.

(** X7: ids do not tell filenames apart: leading characters, with no dot
    among them and no character of [a-z0-9] in their lowercase form, leave
    no trace in the slug. *)
Theorem slug_ignores_leading_marks (marks filename : str) :
  ~ In "."%char marks ->
  existsb is_lower_alnum (lower marks) = false ->
  song_id_of (marks ++ filename) = song_id_of filename.
Proof.
  induction marks as [|c marks IH]; intros Hdot Hal; [reflexivity|].
  cbn [lower map existsb] in Hal. apply orb_false_iff in Hal as [Hc Hal].
  change ((c :: marks) ++ filename) with (c :: (marks ++ filename)).
  rewrite slug_ignores_first_char.
  - apply IH; [|exact Hal]. intros K; apply Hdot; now right.
  - intros ->. apply Hdot. now left.
  - exact Hc.
Qed.

Lemma slug_ignores_leading_marks_witness :
  song_id_of (lit "(!) " ++ lit "song.mid") = song_id_of (lit "song.mid").
Proof.
  apply (slug_ignores_leading_marks "(!) " "song.mid");
    [vm_compute; intuition discriminate | vm_compute; reflexivity].
Defined.

(** ** Names the classifier takes apart *)

Lemma cut_first (a b : str) :
  contains " -" a = false -> cut " - " (a ++ lit " - " ++ b) = Some (a, b).
Proof.
  induction a as [|c a IH]; intros H.
  - change ([] ++ lit " - " ++ b) with (lit " - " ++ b).
    destruct (lit " - " ++ b) eqn:E; [discriminate|].
    cbn [cut]. rewrite <- E, startswith_app.
    change (skipn (List.length (lit " - ")) (lit " - " ++ b)) with b.
    reflexivity.
  - simpl in H. apply orb_false_iff in H as [H1 H2].
    change ((c :: a) ++ lit " - " ++ b) with (c :: (a ++ lit " - " ++ b)).
    cbn [cut]. rewrite (IH H2).
    assert (E : startswith " - " (c :: a ++ lit " - " ++ b) = false).
    { destruct (startswith " - " (c :: a ++ lit " - " ++ b)) eqn:E;
        [|reflexivity].
      change (lit " - ") with (lit " -" ++ [" "%char]) in E at 1.
      destruct a as [|c' a'].
      - simpl in E. rewrite andb_false_r in E. discriminate.
      - simpl in E, H1.
        apply andb_true_iff in E as [E1 E].
        apply andb_true_iff in E as [E2 _].
        rewrite E1, E2 in H1. discriminate. }
    now rewrite E.
Qed.

Lemma dash_space_has_dash (s : str) :
  contains " -" s = false -> contains " - " s = false.
Proof.
  intros H. destruct (contains " - " s) eqn:E; [|reflexivity].
  apply contains_inv in E as (a & b & ->).
  change (lit " - " ++ b) with (lit " -" ++ (" "%char :: b)) in H.
  now rewrite contains_app in H.
Qed.

(** X8: a file named [artist - title.mid] is read back as that artist and
    that title, when neither holds a dot, the artist holds no [" -"],
    neither has space around it, and no keyword rule applies. *)
Theorem artist_title_round_trip (artist title : str) :
  ~ In "."%char artist -> ~ In "."%char title ->
  contains " -" artist = false ->
  strip artist = artist -> strip title = title ->
  some_rule (lower (artist ++ lit " - " ++ title)) = false ->
  extract_song_info_from_filename
    (artist ++ lit " - " ++ title ++ lit ".mid")
  = Ok (Info.Build title artist [lit "easy"] 5).
Proof.
  intros Ha Ht Hsep Hsa Hst Hrule.
  assert (Hname : strip_extension (artist ++ lit " - " ++ title ++ lit ".mid")
                  = artist ++ lit " - " ++ title).
  { replace (artist ++ lit " - " ++ title ++ lit ".mid")
      with ((artist ++ lit " - " ++ title) ++ lit ".mid")
      by now rewrite <- !app_assoc.
    apply strip_extension_mid. rewrite !in_app_iff.
    intros [K|[K|K]]; [now apply Ha | | now apply Ht].
    vm_compute in K. intuition discriminate. }
  assert (Hsplit : split_title_artist (artist ++ lit " - " ++ title)
                   = Ok (title, artist)).
  { unfold split_title_artist, split1.
    rewrite contains_app, (cut_first _ _ Hsep).
    cbn [index nth_error bind]. now rewrite Hsa, Hst. }
  rewrite <- Hname in Hsplit at 1.
  rewrite (extract_unfold _ _ _ Hsplit), Hname.
  now rewrite (special_cases_none _ _ _ Hrule).
Qed.

Lemma artist_title_round_trip_witness :
  extract_song_info_from_filename
    (lit "Daft Punk" ++ lit " - " ++ lit "Get Lucky" ++ lit ".mid")
  = Ok (Info.Build (lit "Get Lucky") (lit "Daft Punk") [lit "easy"] 5).
Proof.
  apply (artist_title_round_trip "Daft Punk" "Get Lucky");
    try (vm_compute; reflexivity);
    vm_compute; intuition discriminate.
Defined.

(** X9: a file named [base.mid], with no dot and no [" -"] in the base and
    no keyword rule applying, gets the base as title and ["Unknown"] as
    artist. *)
Theorem plain_name_is_title (base : str) :
  ~ In "."%char base ->
  contains " -" base = false ->
  some_rule (lower base) = false ->
  extract_song_info_from_filename (base ++ lit ".mid")
  = Ok (Info.Build base (lit "Unknown") [lit "easy"] 5).
Proof.
  intros Hdot Hsep Hrule.
  pose proof (strip_extension_mid base Hdot) as Hname.
  assert (Hsplit : split_title_artist base = Ok (base, lit "Unknown")).
  { unfold split_title_artist.
    now rewrite (dash_space_has_dash _ Hsep), Hsep. }
  rewrite <- Hname in Hsplit at 1.
  rewrite (extract_unfold _ _ _ Hsplit), Hname.
  now rewrite (special_cases_none _ _ _ Hrule).
Qed.

Lemma plain_name_is_title_witness :
  extract_song_info_from_filename (lit "random_song" ++ lit ".mid")
  = Ok (Info.Build (lit "random_song") (lit "Unknown") [lit "easy"] 5).
Proof.
  apply (plain_name_is_title "random_song");
    try (vm_compute; reflexivity);
    vm_compute; intuition discriminate.
Defined.

(** X10: no rule of the chain is dead: each rule, through each of its
    keywords and each of its inner cases, decides the title and artist of
    some filename. *)
Theorem every_rule_fires :
  Forall
    (fun '(filename, title, artist) =>
       extract_song_info_from_filename (lit filename)
       = Ok (Info.Build (lit title) (lit artist) [lit "easy"] 5))
    [("twinkle.mid", "Twinkle Twinkle Little Star", "Traditional");
     ("beethoven.mid", "Moonlight Sonata", "Beethoven");
     ("moonlight.mid", "Moonlight Sonata", "Beethoven");
     ("debussy.mid", "Clair de Lune", "Debussy");
     ("clair.mid", "Clair de Lune", "Debussy");
     ("metallica master.mid", "Master of Puppets", "Metallica");
     ("metallica nothing.mid", "Nothing Else Matters", "Metallica");
     ("metallica one.mid", "metallica one", "Metallica");
     ("michael jackson.mid", "Billie Jean", "Michael Jackson");
     ("billie jean.mid", "Billie Jean", "Michael Jackson");
     ("nirvana.mid", "Smells Like Teen Spirit", "Nirvana");
     ("smells.mid", "Smells Like Teen Spirit", "Nirvana");
     ("owl city.mid", "Fireflies", "Owl City");
     ("fireflies.mid", "Fireflies", "Owl City");
     ("pokemon.mid", "Wild Pokemon Battle", "Pokemon");
     ("smash mouth.mid", "All Star", "Smash Mouth");
     ("final countdown.mid", "The Final Countdown", "Europe");
     ("toto.mid", "Africa", "Toto");
     ("africa.mid", "Africa", "Toto");
     ("wii theme.mid", "Wii Theme", "Nintendo");
     ("mii channel.mid", "Mii Channel", "Nintendo");
     ("super smash.mid", "Super Smash Bros Brawl - Main Theme", "Nintendo");
     ("mountain king.mid", "In the Hall of the Mountain King", "Grieg");
     ("titanic.mid", "My Heart Will Go On", "Celine Dion");
     ("heart.mid", "My Heart Will Go On", "Celine Dion");
     ("backstreet.mid", "I Want It That Way", "Backstreet Boys");
     ("dooms-gate.mid", "Doom's Gate", "Doom");
     ("spearsofjustice.mid", "Spear of Justice", "Undertale");
     ("test-drive.mid", "Test Drive", "Test");
     ("desert.mid", "Desert Canyon", "Traditional");
     ("canyon.mid", "Desert Canyon", "Traditional");
     ("beach town violin.mid", "Beach Town Violin", "Traditional");
     ("beach town flute.mid", "Beach Town Flute", "Traditional");
     ("beach town.mid", "beach town", "Traditional")].
Proof. repeat constructor; vm_compute; reflexivity. Qed.

(** ** The text of the database file *)














(** ** The listing *)






(** ** A whole run *)




